(** * Fault injection into SMV model text: a shallow embedding

    The development follows the Python sources
    [script/smv_utils.py], [script/xml_parser.py] and
    [script/faults_injector.py].  Text is a list of characters; a character
    is a code point below 256 (Rocq's [ascii]), and the character classes of
    Python ([str.isspace], [str.splitlines], the [re] classes [\s], [\w] and
    [.]) are written out on that range.  Exceptions are a sum type; text
    printed on the standard output is a list of printed lines. *)

From Stdlib Require Import Ascii String DecimalString.
From Stdlib Require Import List Bool Arith ZArith Lia Permutation.
Import ListNotations.

Set Implicit Arguments.

Local Open Scope list_scope.

(** ** Python text *)

Module Py.

Definition str := list ascii.

Definition lit (s : string) : str := list_ascii_of_string s.

Definition code (c : ascii) : nat := nat_of_ascii c.

Definition between (lo hi : nat) (c : ascii) : bool :=
  (lo <=? code c)%nat && (code c <=? hi)%nat.

(** [str.isspace] on one character, also the class [\s] of [re]. *)
Definition is_space (c : ascii) : bool :=
  between 9 13 c || between 28 32 c || between 133 133 c
  || between 160 160 c.

(** The class [\w] of [re] on a text pattern: alphanumeric or underscore. *)
Definition is_word (c : ascii) : bool :=
  between 48 57 c || between 65 90 c || between 95 95 c || between 97 122 c
  || between 170 170 c || between 178 179 c || between 181 181 c
  || between 185 186 c || between 188 190 c || between 192 214 c
  || between 216 246 c || between 248 255 c.

(** The characters at which [str.splitlines] ends a line. *)
Definition is_linebreak (c : ascii) : bool :=
  between 10 13 c || between 28 30 c || between 133 133 c.

Definition is_cr (c : ascii) : bool := between 13 13 c.
Definition is_lf (c : ascii) : bool := between 10 10 c.

Definition LF : ascii := ascii_of_nat 10.
Definition nl : str := [LF].

(** [a == b] on texts. *)
Fixpoint str_eqb (a b : str) : bool :=
  match a, b with
  | [], [] => true
  | x :: a', y :: b' => Ascii.eqb x y && str_eqb a' b'
  | _, _ => false
  end.

(** [x in items] on a list of texts. *)
Definition mem (x : str) (items : list str) : bool :=
  existsb (str_eqb x) items.

(** [s.startswith(p)] *)
Fixpoint startswith (p s : str) : bool :=
  match p, s with
  | [], _ => true
  | _ :: _, [] => false
  | a :: p', b :: s' => Ascii.eqb a b && startswith p' s'
  end.

(** [p in s] on texts: [p] occurs in [s]. *)
Fixpoint contains (p s : str) : bool :=
  startswith p s ||
  match s with
  | [] => false
  | _ :: s' => contains p s'
  end.

(** The rest of [s] after the prefix [p], when [s] starts with [p]. *)
Fixpoint strip_prefix (p s : str) : option str :=
  match p, s with
  | [], _ => Some s
  | _ :: _, [] => None
  | a :: p', b :: s' => if Ascii.eqb a b then strip_prefix p' s' else None
  end.

(** The longest prefix of characters in a class, and the rest. *)
Fixpoint span (f : ascii -> bool) (s : str) : str * str :=
  match s with
  | [] => ([], [])
  | c :: s' =>
      if f c then let (a, b) := span f s' in (c :: a, b) else ([], s)
  end.

Definition lstrip (s : str) : str := snd (span is_space s).
Definition rstrip (s : str) : str := rev (lstrip (rev s)).
(** [s.strip()] *)
Definition strip (s : str) : str := rstrip (lstrip s).

(** [s.splitlines(keepends=True)]: a line ends after a line break, and a
    carriage return directly followed by a line feed ends it after the
    line feed. *)
Definition ends_line (c : ascii) (rest : str) : bool :=
  if is_cr c
  then match rest with
       | c' :: _ => negb (is_lf c')
       | [] => true
       end
  else is_linebreak c.

Fixpoint splitlines (s : str) : list str :=
  match s with
  | [] => []
  | c :: s' =>
      if ends_line c s' then [c] :: splitlines s'
      else match splitlines s' with
           | [] => [[c]]
           | l :: ls => (c :: l) :: ls
           end
  end.

(** [''.join(lines)] *)
Definition join (lines : list str) : str := concat lines.

(** [sep.join(items)] *)
Fixpoint join_with (sep : str) (items : list str) : str :=
  match items with
  | [] => []
  | [x] => x
  | x :: rest => x ++ sep ++ join_with sep rest
  end.

(** [s.split(sep)] for a separator of one character. *)
Fixpoint split_char (sep : ascii) (s : str) : list str :=
  match s with
  | [] => [[]]
  | c :: s' =>
      if Ascii.eqb c sep then [] :: split_char sep s'
      else match split_char sep s' with
           | [] => [[c]]
           | l :: ls => (c :: l) :: ls
           end
  end.

(** The text before and after the first occurrence of [p] in [s]. *)
Fixpoint partition_at (p s : str) : option (str * str) :=
  match strip_prefix p s with
  | Some rest => Some ([], rest)
  | None =>
      match s with
      | [] => None
      | c :: s' =>
          match partition_at p s' with
          | Some (a, b) => Some (c :: a, b)
          | None => None
          end
      end
  end.

(** [lines.insert(i, x)] for [0 <= i]: past the end it appends. *)
Definition list_insert {A} (i : nat) (x : A) (l : list A) : list A :=
  firstn i l ++ x :: skipn i l.

(** [lines[i:j]] for [0 <= i] and [0 <= j]. *)
Definition slice {A} (i j : nat) (l : list A) : list A :=
  firstn (j - i) (skipn i l).

(** The index of the first element that satisfies [p]: the loops
    [for i, line in enumerate(lines): if p(line): return i]. *)
Fixpoint find_index {A} (p : A -> bool) (l : list A) : option nat :=
  match l with
  | [] => None
  | x :: l' => if p x then Some 0 else option_map S (find_index p l')
  end.

(** [range(lo, hi)] *)
Definition range (lo hi : Z) : list Z :=
  map (fun k => (lo + Z.of_nat k)%Z) (seq 0 (Z.to_nat (hi - lo))).

(** [set(items)], kept as the list of the distinct items, and the equality
    of two sets. *)
Fixpoint set_of (items : list str) : list str :=
  match items with
  | [] => []
  | x :: rest => if mem x rest then set_of rest else x :: set_of rest
  end.

Definition subset (a b : list str) : bool := forallb (fun x => mem x b) a.
Definition set_eqb (a b : list str) : bool := subset a b && subset b a.

(** [str(i)] for an integer. *)
Definition str_of_Z (i : Z) : str :=
  lit (NilZero.string_of_int (Z.to_int i)).

End Py.

Import Py.

(** ** Exceptions and results

    Every exception the sources raise is a [ValueError]; the constructor
    records which [raise] statement it comes from. *)

Inductive exn : Type :=
| ModuleNotFound (module_name : str)
| NoVarSection
| NoAssignSection
| NextAssignmentNotFound (variable : str)
| UnsupportedFaultTypes (fault_types : list str).

Inductive result (A : Type) : Type :=
| Ok (a : A)
| Raise (e : exn).

Arguments Ok {A} a.
Arguments Raise {A} e.

Definition bind {A B} (r : result A) (k : A -> result B) : result B :=
  match r with
  | Ok a => k a
  | Raise e => Raise e
  end.

Notation "x <- r ;; k" := (bind r (fun x => k))
  (at level 61, r at next level, right associativity).

(** ** [xml_parser.py]: the fault model *)

Record Fault : Type := mkFault {
  type : str;
  variable : str;
  value : str
}.

Record FaultModel : Type := mkFaultModel {
  model_file : str;
  target_module : str;
  redundancy : Z;
  faults : list Fault
}.

(** ** [smv_utils.py] *)

Definition is_module_header (module_name line : str) : bool :=
  startswith (lit "MODULE " ++ module_name) (strip line).

Definition is_any_module_header (line : str) : bool :=
  startswith (lit "MODULE ") (strip line).

Definition find_module (content module_name : str) : result (nat * nat) :=
  let lines := splitlines content in
  match find_index (is_module_header module_name) lines with
  | None => Raise (ModuleNotFound module_name)
  | Some start =>
      match find_index is_any_module_header (skipn (start + 1) lines) with
      | Some k => Ok (start, start + 1 + k)
      | None => Ok (start, length lines)
      end
  end.

(** ** [faults_injector.py]: regular expressions

    The search of [_inject_into_next_assignment] and of
    [protect_toggle_logic], with the flag DOTALL: three groups, the header
    [next(VARIABLE)], white space, [:=], white space, [case] (the variable
    is escaped, so it stands for itself); then the shortest text, of any
    characters, that is followed by the third group [esac;].  The search
    tries each position from the left.  A greedy run of white space never
    gives a character back, as neither [:] nor [c] is white space. *)

Definition match_next_header (variable s : str) : option (str * str) :=
  let header := lit "next(" ++ variable ++ lit ")" in
  match strip_prefix header s with
  | None => None
  | Some r0 =>
      let (ws1, r1) := span is_space r0 in
      match strip_prefix (lit ":=") r1 with
      | None => None
      | Some r2 =>
          let (ws2, r3) := span is_space r2 in
          match strip_prefix (lit "case") r3 with
          | None => None
          | Some r4 =>
              Some (header ++ ws1 ++ lit ":=" ++ ws2 ++ lit "case", r4)
          end
      end
  end.

(** One match: the text before it, its three groups, the text after it. *)
Record case_match : Type := mkCaseMatch {
  before : str;
  group1 : str;
  group2 : str;
  group3 : str;
  after : str
}.

Definition match_case_block_at (variable s : str) : option case_match :=
  match match_next_header variable s with
  | None => None
  | Some (g1, r) =>
      match partition_at (lit "esac;") r with
      | None => None
      | Some (g2, rest) => Some (mkCaseMatch [] g1 g2 (lit "esac;") rest)
      end
  end.

Fixpoint search_case_block (variable s : str) : option case_match :=
  match match_case_block_at variable s with
  | Some m => Some m
  | None =>
      match s with
      | [] => None
      | c :: s' =>
          match search_case_block variable s' with
          | Some m =>
              Some (mkCaseMatch (c :: before m) (group1 m) (group2 m)
                      (group3 m) (after m))
          | None => None
          end
      end
  end.

(** The shortest run of [.] (any character but a line feed) followed by
    [p]. *)
Fixpoint lazy_dots_until (p s : str) : option (str * str) :=
  match strip_prefix p s with
  | Some rest => Some ([], rest)
  | None =>
      match s with
      | [] => None
      | c :: s' =>
          if is_lf c then None
          else match lazy_dots_until p s' with
               | Some (a, b) => Some (c :: a, b)
               | None => None
               end
      end
  end.

(** The match of [replicate_for_redundancy] at the start of a line: white
    space (group 1), a word (group 2), white space, [:], white space,
    [process], white space (one character at least), a word (group 3), an
    opening parenthesis, the shortest run of characters other than a line
    feed (group 4) that is followed by a closing parenthesis and a
    semicolon.  Each greedy class is followed by a character outside the
    class, so it takes its longest run. *)
Definition match_instance (line : str) : option (str * str * str * str) :=
  let (indent, r0) := span is_space line in
  let (instance_name, r1) := span is_word r0 in
  match instance_name with
  | [] => None
  | _ :: _ =>
      let (_, r2) := span is_space r1 in
      match strip_prefix (lit ":") r2 with
      | None => None
      | Some r3 =>
          let (_, r4) := span is_space r3 in
          match strip_prefix (lit "process") r4 with
          | None => None
          | Some r5 =>
              let (ws, r6) := span is_space r5 in
              let (module_name, r7) := span is_word r6 in
              match ws, module_name with
              | _ :: _, _ :: _ =>
                  match strip_prefix (lit "(") r7 with
                  | None => None
                  | Some r8 =>
                      match lazy_dots_until (lit ");") r8 with
                      | None => None
                      | Some (params, _) =>
                          Some (indent, instance_name, module_name, params)
                      end
                  end
              | _, _ => None
              end
          end
      end
  end.

(** ** [faults_injector.py]: class [StuckAtInjector] *)

Record StuckAtInjector : Type := mkStuckAtInjector {
  self_faults : list Fault
}.

Definition mode_name (fault : Fault) : str := lit "stuck_" ++ value fault.

(** The list [modes] at the end of the loop of [get_fault_mode_enum]. *)
Definition fault_modes (self : StuckAtInjector) : list str :=
  fold_left
    (fun modes fault =>
       if mem (mode_name fault) modes then modes
       else modes ++ [mode_name fault])
    (self_faults self) [lit "none"].

Definition get_fault_mode_enum (self : StuckAtInjector) : str :=
  join_with (lit ", ") (fault_modes self).

Definition _find_section_start (lines : list str) (keyword : str)
  : option nat :=
  find_index (fun line => startswith keyword (strip line)) lines.

(** The loop of [_find_insert_position_for_next_fault_mode] from index [i]
    on, [rest] being the lines from [i] on. *)
Fixpoint scan_insert_position (rest : list str) (i last_init_idx : nat)
  : nat :=
  match rest with
  | [] => last_init_idx + 1
  | line :: rest' =>
      if contains (lit "init(") line
      then scan_insert_position rest' (i + 1) i
      else if contains (lit "next(") line then i
      else scan_insert_position rest' (i + 1) last_init_idx
  end.

Definition _find_insert_position_for_next_fault_mode
  (lines : list str) (assign_idx : nat) : nat :=
  scan_insert_position (skipn (assign_idx + 1) lines) (assign_idx + 1)
    assign_idx.

Definition _generate_next_fault_mode (self : StuckAtInjector) : str :=
  let choices := get_fault_mode_enum self in
  lit "    next(fault_mode) :=" ++ nl ++
  lit "        case" ++ nl ++
  lit "            fault_mode = none :" ++ nl ++
  lit "                {" ++ choices ++ lit "};" ++ nl ++
  lit "            TRUE :" ++ nl ++
  lit "                fault_mode;" ++ nl ++
  lit "        esac;" ++ nl.

Definition fault_mode_decl (self : StuckAtInjector) : str :=
  lit "    fault_mode : {" ++ get_fault_mode_enum self ++ lit "};" ++ nl.

Definition init_fault : str :=
  lit "    init(fault_mode) := none;" ++ nl ++ nl.

(** The dictionary [faults_by_var] of [_inject_fault_conditions]: keys in
    the order of their first insertion. *)
Fixpoint group_add (key : str) (fault : Fault)
  (groups : list (str * list Fault)) : list (str * list Fault) :=
  match groups with
  | [] => [(key, [fault])]
  | (k, fs) :: rest =>
      if str_eqb k key then (k, fs ++ [fault]) :: rest
      else (k, fs) :: group_add key fault rest
  end.

Definition faults_by_var (self : StuckAtInjector)
  : list (str * list Fault) :=
  fold_left (fun groups fault => group_add (variable fault) fault groups)
    (self_faults self) [].

Definition fault_case (fault : Fault) : str :=
  lit "        fault_mode = " ++ mode_name fault ++ lit " : " ++
  value fault ++ lit ";" ++ nl.

Definition _inject_into_next_assignment
  (text variable : str) (faults : list Fault) : result str :=
  match search_case_block variable text with
  | None => Raise (NextAssignmentNotFound variable)
  | Some m =>
      let prefix := group1 m in
      let original_cases := group2 m in
      let suffix := group3 m in
      let fault_cases :=
        fold_left (fun acc fault => acc ++ fault_case fault) faults nl in
      let new_assignment :=
        prefix ++ fault_cases ++ original_cases ++ lit "    " ++ suffix in
      Ok (before m ++ new_assignment ++ after m)
  end.

(** The loop of [_inject_fault_conditions] over the groups. *)
Fixpoint inject_groups (module_text : str)
  (groups : list (str * list Fault)) : result str :=
  match groups with
  | [] => Ok module_text
  | (variable, var_faults) :: rest =>
      module_text' <-
        _inject_into_next_assignment module_text variable var_faults ;;
      inject_groups module_text' rest
  end.

Definition _inject_fault_conditions (self : StuckAtInjector)
  (module_text : str) : result str :=
  inject_groups module_text (faults_by_var self).

(** The first part of [inject_into_module], up to the insertion of the
    assignment [next(fault_mode)]: the list [lines] at that point. *)
Definition inject_declarations (self : StuckAtInjector) (module_text : str)
  : result (list str) :=
  let lines := splitlines module_text in
  match _find_section_start lines (lit "VAR") with
  | None => Raise NoVarSection
  | Some var_idx =>
      let lines := list_insert (var_idx + 1) (fault_mode_decl self) lines in
      match _find_section_start lines (lit "ASSIGN") with
      | None => Raise NoAssignSection
      | Some assign_idx =>
          let lines := list_insert (assign_idx + 1) init_fault lines in
          let next_fault := _generate_next_fault_mode self in
          let insert_pos :=
            _find_insert_position_for_next_fault_mode lines assign_idx in
          Ok (list_insert insert_pos next_fault lines)
      end
  end.

Definition inject_into_module (self : StuckAtInjector) (module_text : str)
  : result str :=
  lines <- inject_declarations self module_text ;;
  _inject_fault_conditions self (join lines).

Definition toggle : str := lit "request_toggle".

(** One step of the loop of [protect_toggle_logic] over the lines of the
    block. *)
Definition protect_line (line : str) : str :=
  if contains (lit "!request_toggle") line && contains (lit ":") line
  then
    match partition_at (lit ":") line with
    | Some (part0, part1) =>
        let condition := strip part0 in
        let action := strip part1 in
        let new_condition :=
          lit "fault_mode = none &" ++ nl ++ lit "        " ++ condition in
        lit "        " ++ new_condition ++ lit " : " ++ action ++ nl
    | None => line ++ nl
    end
  else line ++ nl.

Definition protect_toggle_logic (module_text : str) : str :=
  match search_case_block toggle module_text with
  | None => module_text
  | Some m =>
      let lines := split_char LF (group2 m) in
      let new_cases := map protect_line lines in
      let new_assignment :=
        group1 m ++ join new_cases ++ lit "    " ++ group3 m in
      before m ++ new_assignment ++ after m
  end.

(** ** [faults_injector.py]: class [FaultInjectionEngine] *)

Record FaultInjectionEngine : Type := mkFaultInjectionEngine {
  fault_model : FaultModel;
  injector : StuckAtInjector
}.

Definition stuck_at : str := lit "stuck-at".

Definition _create_injector (fm : FaultModel) : result StuckAtInjector :=
  let fault_types := set_of (map type (faults fm)) in
  if set_eqb fault_types [stuck_at]
  then Ok (mkStuckAtInjector (faults fm))
  else Raise (UnsupportedFaultTypes fault_types).

(** [FaultInjectionEngine(fault_model)] *)
Definition new_engine (fm : FaultModel) : result FaultInjectionEngine :=
  inj <- _create_injector fm ;;
  Ok (mkFaultInjectionEngine fm inj).

Definition inject (self : FaultInjectionEngine) (smv_content : str)
  : result str :=
  range <- find_module smv_content (target_module (fault_model self)) ;;
  let (start_idx, end_idx) := range : nat * nat in
  let lines := splitlines smv_content in
  let module_text := join (slice start_idx end_idx lines) in
  modified_module <- inject_into_module (injector self) module_text ;;
  let modified_module := protect_toggle_logic modified_module in
  Ok (join (firstn start_idx lines) ++ modified_module ++
      join (skipn end_idx lines)).

Definition instance_needle (fm : FaultModel) : str :=
  lit ": process " ++ target_module fm.

Definition new_instance (indent instance_name module_name params : str)
  (i : Z) : str :=
  indent ++ instance_name ++ lit "_" ++ str_of_Z i ++ lit " : process " ++
  module_name ++ lit "(" ++ params ++ lit ");" ++ nl.

(** One step of the loop over [nominal_lines]: the state is the list
    [new_nominal] and the flag [found_target]. *)
Definition replicate_step (fm : FaultModel) (st : list str * bool)
  (line : str) : list str * bool :=
  let (new_nominal, found_target) := st in
  if contains (instance_needle fm) line
  then
    match match_instance line with
    | Some (indent, instance_name, module_name, params) =>
        (new_nominal ++
           map (new_instance indent instance_name module_name params)
             (range 1 (redundancy fm + 1)),
         true)
    | None => (new_nominal ++ [line], true)
    end
  else (new_nominal ++ [line], found_target).

Definition warning_no_wrapper : str :=
  lit "Warning: NominalR module not found, skipping redundancy".

Definition warning_no_instance (fm : FaultModel) : str :=
  lit "Warning: Could not find instance of " ++ target_module fm ++
  lit " in NominalR".

(** The returned text and the lines printed. *)
Definition replicate_for_redundancy (self : FaultInjectionEngine)
  (smv_content : str) : str * list str :=
  let fm := fault_model self in
  if (redundancy fm <=? 1)%Z then (smv_content, [])
  else
    match find_module smv_content (lit "NominalR") with
    | Raise _ => (smv_content, [warning_no_wrapper])
    | Ok (start_idx, end_idx) =>
        let lines := splitlines smv_content in
        let nominal_lines := slice start_idx end_idx lines in
        let (new_nominal, found_target) :=
          fold_left (replicate_step fm) nominal_lines ([], false) in
        if negb found_target
        then (smv_content, [warning_no_instance fm])
        else
          (join (firstn start_idx lines) ++ join new_nominal ++
           join (skipn end_idx lines), [])
    end.

(** ** [script.py]

    Its exceptions are [ValueError]s too: the one [find_module] raises, the
    unknown fault type of [inject_faults], the failure of
    [inject_stuck_at]. *)

Inductive script_exn : Type :=
| SmvError (e : exn)
| UnknownFaultType (fault_type : str)
| FailedToInject.

Inductive script_result (A : Type) : Type :=
| Done (a : A)
| Fails (e : script_exn).

Arguments Done {A} a.
Arguments Fails {A} e.

Definition stuck_decl : str := lit "    fault_mode : {none, stuck};" ++ nl.

Definition stuck_assign (fault : Fault) : str :=
  lit "    next(" ++ variable fault ++ lit ") := " ++
  lit "case fault_mode = stuck : " ++ value fault ++ lit "; " ++
  lit "TRUE : " ++ variable fault ++ lit "; esac;" ++ nl.

(** One step of the loop of [inject_stuck_at]: the state is the list [out]
    and the flags [inserted_var] and [inserted_assign]. *)
Definition stuck_at_step (fault : Fault) (st : list str * bool * bool)
  (line : str) : list str * bool * bool :=
  let '(out, inserted_var, inserted_assign) := st in
  let out := out ++ [line] in
  let '(out, inserted_var) :=
    if str_eqb (strip line) (lit "VAR") && negb inserted_var
    then (out ++ [stuck_decl], true)
    else (out, inserted_var) in
  let '(out, inserted_assign) :=
    if str_eqb (strip line) (lit "ASSIGN") && negb inserted_assign
    then (out ++ [stuck_assign fault], true)
    else (out, inserted_assign) in
  (out, inserted_var, inserted_assign).

Definition inject_stuck_at (module_text : str) (fault : Fault)
  : script_result str :=
  let lines := splitlines module_text in
  let '(out, inserted_var, inserted_assign) :=
    fold_left (stuck_at_step fault) lines ([], false, false) in
  if negb inserted_var || negb inserted_assign
  then Fails FailedToInject
  else Done (join out).

(** The dictionary [FAULT_INJECTORS] and its lookup. *)
Definition FAULT_INJECTORS
  : list (str * (str -> Fault -> script_result str)) :=
  [(lit "stuck_at", inject_stuck_at)].

Fixpoint dict_get {V} (d : list (str * V)) (key : str) : option V :=
  match d with
  | [] => None
  | (k, v) :: rest => if str_eqb k key then Some v else dict_get rest key
  end.

(** The loop of [inject_faults] over the faults of the specification. *)
Fixpoint apply_faults (module_text : str) (fs : list Fault)
  : script_result str :=
  match fs with
  | [] => Done module_text
  | fault :: rest =>
      match dict_get FAULT_INJECTORS (type fault) with
      | None => Fails (UnknownFaultType (type fault))
      | Some fault_injector =>
          match fault_injector module_text fault with
          | Done module_text' => apply_faults module_text' rest
          | Fails e => Fails e
          end
      end
  end.

(** [inject_faults], from the specification and the model text it has
    loaded to the content it saves. *)
Definition inject_faults (spec : FaultModel) (smv_content : str)
  : script_result str :=
  match find_module smv_content (target_module spec) with
  | Raise e => Fails (SmvError e)
  | Ok (start_idx, end_idx) =>
      let lines := splitlines smv_content in
      let module_text := join (slice start_idx end_idx lines) in
      match apply_faults module_text (faults spec) with
      | Fails e => Fails e
      | Done module_text' =>
          Done (join (firstn start_idx lines) ++ module_text' ++
                join (skipn end_idx lines))
      end
  end.

(** ** [xml_parser.py]: [parse_fault_model]

    The function is modelled from the root element that the XML library
    returns for the file.  An element has a tag, attributes, a text (absent
    or present) and child elements; [find], [findtext] and [findall] with a
    plain tag look at the children of the element, in document order. *)

#[warnings="-register-all"]
Inductive Element : Type :=
| mkElement (elem_tag : str) (elem_attrib : list (str * str))
    (elem_text : option str) (elem_children : list Element).

Definition elem_tag (e : Element) : str :=
  match e with mkElement t _ _ _ => t end.
Definition elem_attrib (e : Element) : list (str * str) :=
  match e with mkElement _ a _ _ => a end.
Definition elem_text (e : Element) : option str :=
  match e with mkElement _ _ t _ => t end.
Definition elem_children (e : Element) : list Element :=
  match e with mkElement _ _ _ c => c end.

(** [e.findall(tag)] *)
Definition findall (e : Element) (tag : str) : list Element :=
  filter (fun c => str_eqb (elem_tag c) tag) (elem_children e).

(** [e.find(tag)]: the first such child, or [None]. *)
Definition find_child (e : Element) (tag : str) : option Element :=
  match findall e tag with
  | [] => None
  | c :: _ => Some c
  end.

(** [e.findtext(tag)]: the text of the first such child, empty when the
    child has no text, or [None] without such a child. *)
Definition findtext (e : Element) (tag : str) : option str :=
  match find_child e tag with
  | None => None
  | Some c =>
      match elem_text c with
      | Some t => Some t
      | None => Some []
      end
  end.

Inductive xml_exn : Type :=
| MissingModel
| MissingTargetModule
| IncompleteFault
| InvalidInteger (literal : str).

Inductive xml_result (A : Type) : Type :=
| Parsed (a : A)
| Rejected (e : xml_exn).

Arguments Parsed {A} a.
Arguments Rejected {A} e.

(** The loop over the [fault] elements. *)
Fixpoint parse_faults (elems : list Element) (acc : list Fault)
  : xml_result (list Fault) :=
  match elems with
  | [] => Parsed acc
  | f :: rest =>
      match findtext f (lit "type"), findtext f (lit "variable"),
            findtext f (lit "value") with
      | Some ty, Some var, Some val =>
          parse_faults rest (acc ++ [mkFault (strip ty) (strip var) (strip val)])
      | _, _, _ => Rejected IncompleteFault
      end
  end.

Section XmlParser.

(** [int(s)] of Python on a text: the integer, or [None] when it raises. *)
Variable py_int : str -> option Z.

Definition parse_fault_model (root : Element) : xml_result FaultModel :=
  match findtext root (lit "model") with
  | None => Rejected MissingModel
  | Some model_text =>
      let model_file := strip model_text in
      match findtext root (lit "target-module") with
      | None => Rejected MissingTargetModule
      | Some target_text =>
          let target_module := strip target_text in
          let parsed_redundancy :=
            match find_child root (lit "redundancy") with
            | None => Parsed 1%Z
            | Some redundancy_elem =>
                let count :=
                  match dict_get (elem_attrib redundancy_elem) (lit "count")
                  with
                  | Some c => c
                  | None => lit "1"
                  end in
                match py_int count with
                | Some n => Parsed n
                | None => Rejected (InvalidInteger count)
                end
            end in
          match parsed_redundancy with
          | Rejected e => Rejected e
          | Parsed redundancy =>
              let parsed_faults :=
                match find_child root (lit "faults") with
                | None => Parsed []
                | Some faults_elem =>
                    parse_faults (findall faults_elem (lit "fault")) []
                end in
              match parsed_faults with
              | Rejected e => Rejected e
              | Parsed faults =>
                  Parsed (mkFaultModel model_file target_module redundancy
                            faults)
              end
          end
      end
  end.

End XmlParser.

(** [parse_fault_model(xml_path)] from the path: its first statement,
    [tree = ET.parse(xml_path)], is the library's; [et_parse] is that call
    followed by [getroot()], [None] when the library raises (a file that
    is missing or cannot be read, a text that is no XML).  The exception
    is then the library's, and [parse_fault_model] lets it through. *)
Inductive parse_outcome : Type :=
| LibraryRaises
| Returns (r : xml_result FaultModel).

Definition parse_fault_model_path (et_parse : str -> option Element)
  (py_int : str -> option Z) (xml_path : str) : parse_outcome :=
  match et_parse xml_path with
  | None => LibraryRaises
  | Some root => Returns (parse_fault_model py_int root)
  end.

(** * Vocabulary of the statements *)

(** [i] is the first index of [l] whose element satisfies [p]. *)
Definition first_at {A} (p : A -> bool) (l : list A) (i : nat) : Prop :=
  (exists x, nth_error l i = Some x /\ p x = true) /\
  forall j y, j < i -> nth_error l j = Some y -> p y = false.

(** Line [e] is the first module header after line [s]. *)
Definition next_header_at (lines : list str) (s e : nat) : Prop :=
  s < e /\
  (exists l, nth_error lines e = Some l /\ is_any_module_header l = true) /\
  forall j l, s < j < e -> nth_error lines j = Some l ->
              is_any_module_header l = false.

Definition no_header_after (lines : list str) (s : nat) : Prop :=
  forall j l, s < j -> nth_error lines j = Some l ->
              is_any_module_header l = false.

(** What the loop of [replicate_for_redundancy] appends for one line of the
    wrapper module. *)
Definition expand_line (fm : FaultModel) (line : str) : list str :=
  if contains (instance_needle fm) line
  then
    match match_instance line with
    | Some (indent, instance_name, module_name, params) =>
        map (new_instance indent instance_name module_name params)
          (range 1 (redundancy fm + 1))
    | None => [line]
    end
  else [line].

(** A line that the scan for the insertion position takes for an
    initial-value assignment, and a line at which the scan stops. *)
Definition mentions_init (line : str) : bool := contains (lit "init(") line.

Definition is_next_line (line : str) : bool :=
  negb (mentions_init line) && contains (lit "next(") line.

(** The index of the last element that satisfies [p]. *)
Fixpoint last_index {A} (p : A -> bool) (l : list A) : option nat :=
  match l with
  | [] => None
  | x :: l' =>
      match last_index p l' with
      | Some k => Some (S k)
      | None => if p x then Some 0 else None
      end
  end.

(** [k] is the last index of [l] whose element satisfies [p]. *)
Definition last_at {A} (p : A -> bool) (l : list A) (k : nat) : Prop :=
  (exists x, nth_error l k = Some x /\ p x = true) /\
  forall j y, k < j -> nth_error l j = Some y -> p y = false.


(** The distinct items of a list, each at its first occurrence. *)
Fixpoint dedup_first (xs : list str) : list str :=
  match xs with
  | [] => []
  | x :: rest =>
      x :: filter (fun y => negb (str_eqb y x)) (dedup_first rest)
  end.

(** The enumeration of the fault modes as the specification words it:
    [none], then [stuck_<value>] for each distinct fault value, in the
    order of first occurrence. *)
Definition fault_mode_enumeration (fs : list Fault) : list str :=
  lit "none" :: map (app (lit "stuck_")) (dedup_first (map value fs)).

Definition has_variable (v : str) (f : Fault) : bool :=
  str_eqb (variable f) v.

(** The groups built from the faults [l]: each key holds the faults of [l]
    on it, in their order; no key twice; every fault's variable is a key. *)
Definition grouped (l : list Fault) (g : list (str * list Fault)) : Prop :=
  (forall k fs, In (k, fs) g -> fs = filter (has_variable k) l /\ fs <> []) /\
  NoDup (map fst g) /\
  (forall f, In f l -> In (variable f) (map fst g)).

Definition is_section (keyword line : str) : bool :=
  startswith keyword (strip line).

(** The index of the assignment header once the declaration is in. *)
Definition shifted_assign (v a0 : nat) : nat :=
  if a0 <? v + 1 then a0 else S a0.

Definition dedup_step (acc : list str) (x : str) : list str :=
  if mem x acc then acc else acc ++ [x].

(** The rewriter stops at the group [(v, fs)]: the groups before it were
    rewritten, giving the text [t], and the search for the block of [v]
    fails on [t]. *)
Definition stops_at (t0 : str) (groups : list (str * list Fault))
  (v : str) : Prop :=
  exists done fs rest t,
    groups = done ++ (v, fs) :: rest /\
    inject_groups t0 done = Ok t /\
    search_case_block v t = None.

(** The text [b] begins with a block of the variable [v]: the header
    [next(v)], white space, [:=], white space, [case], some text, and
    [esac;]. *)
Definition starts_with_block (v b : str) : Prop :=
  exists ws1 ws2 body rest,
    forallb is_space ws1 = true /\ forallb is_space ws2 = true /\
    b = lit "next(" ++ v ++ lit ")" ++ ws1 ++ lit ":=" ++ ws2 ++ lit "case" ++
        body ++ lit "esac;" ++ rest.

(** The text [t] holds a block of [v] somewhere. *)
Definition has_block (v t : str) : Prop :=
  exists a b, t = a ++ b /\ starts_with_block v b.

(** [m] is the first block of [v] in the text [t]: the text is cut into
    what comes before the block, the header of the block up to [case], its
    branches, [esac;], and what comes after; the branches are the shortest
    text that [esac;] follows; and no block of [v] begins further left. *)
Definition first_block (v t : str) (m : case_match) : Prop :=
  t = before m ++ group1 m ++ group2 m ++ lit "esac;" ++ after m /\
  (exists ws1 ws2,
      group1 m =
        lit "next(" ++ v ++ lit ")" ++ ws1 ++ lit ":=" ++ ws2 ++ lit "case" /\
      forallb is_space ws1 = true /\ forallb is_space ws2 = true) /\
  (forall a b,
      group2 m ++ lit "esac;" ++ after m = a ++ lit "esac;" ++ b ->
      length (group2 m) <= length a) /\
  (forall a b,
      t = a ++ b -> length a < length (before m) -> ~ starts_with_block v b).

(** The text of the match [m] with its block rebuilt: the header, a line
    feed, one fault branch for each fault of [fs] in their order, the
    original branches as they were, four spaces and [esac;]. *)
Definition with_fault_branches (m : case_match) (fs : list Fault) : str :=
  before m ++ group1 m ++ nl ++ concat (map fault_case fs) ++
  group2 m ++ lit "    esac;" ++ after m.

(** The text [out] comes from the text [t] by taking the groups in turn:
    each group [(v, fs)] rebuilds the first block of [v] in the text that
    the groups before it have left. *)
Inductive rewritten_in_turn
  : str -> list (str * list Fault) -> str -> Prop :=
| in_turn_done : forall t, rewritten_in_turn t [] t
| in_turn_step : forall t v fs rest m out,
    first_block v t m ->
    rewritten_in_turn (with_fault_branches m fs) rest out ->
    rewritten_in_turn t ((v, fs) :: rest) out.

(** ** Sample inputs *)

Definition sensor_fault : Fault :=
  mkFault stuck_at (lit "reading") (lit "0").

Definition sensor_injector : StuckAtInjector :=
  mkStuckAtInjector [sensor_fault].

Definition sensor_module : str := lit "MODULE Sensor
VAR
  reading : 0..3;
ASSIGN
  init(reading) := 0;
  next(reading) := case TRUE: reading+1; esac;
".

Definition sensor_match : case_match :=
  mkCaseMatch
    (lit "MODULE Sensor
VAR
  reading : 0..3;
ASSIGN
  init(reading) := 0;
  ")
    (lit "next(reading) := case")
    (lit " TRUE: reading+1; ")
    (lit "esac;")
    nl.

Definition wrapper_lines : list str :=
  [lit "MODULE NominalR
"; lit "VAR
"].

Definition sensor_instance : str := lit "  s1 : process Sensor(a, b);
".

Definition sensor_model : str :=
  sensor_module ++ join wrapper_lines ++ sensor_instance.

Definition sensor_engine : FaultInjectionEngine :=
  mkFaultInjectionEngine
    (mkFaultModel (lit "model.smv") (lit "Sensor") 3 [sensor_fault])
    sensor_injector.

(** A wrapper that instantiates [Sensor2], a module whose name begins with
    the target's name. *)
Definition sensor2_model : str :=
  sensor_module ++ join wrapper_lines ++ lit "  s2 : process Sensor2(c);
".

(** A module text that already holds the declaration of [fault_mode]. *)
Definition declared_module : str := lit "MODULE Sensor
VAR
    fault_mode : {none, stuck_0};
  reading : 0..3;
ASSIGN
  init(reading) := 0;
  next(reading) := case TRUE: reading+1; esac;
".

(** A module text with the assignments before the variables, and a fault
    whose value holds [next(]. *)
Definition assign_first_module : str := lit "MODULE Sensor
ASSIGN
  init(reading) := 0;
VAR
  reading : 0..3;
".

Definition next_valued_injector : StuckAtInjector :=
  mkStuckAtInjector [mkFault stuck_at (lit "reading") (lit "next(other)")].

(** A module text with an initial-value assignment below the first
    next-state assignment. *)
Definition pair_module : str := lit "MODULE Pair
VAR
  x : boolean;
  y : boolean;
ASSIGN
  init(x) := TRUE;
  next(x) := case TRUE : !x; esac;
  init(y) := FALSE;
  next(y) := case TRUE : x; esac;
".


(** A module text with a block for [x] and one for [y], and faults on
    both, the value of the fault on [x] being itself a text of the form of
    a block of [y]. *)
Definition masked_module : str := lit "MODULE Pair
VAR
  x : boolean;
  y : boolean;
ASSIGN
  next(x) := case TRUE : x; esac;
  next(y) := case TRUE : y; esac;
".

Definition masked_injector : StuckAtInjector :=
  mkStuckAtInjector
    [mkFault stuck_at (lit "x") (lit "next(y) := case 1; esac;");
     mkFault stuck_at (lit "y") (lit "0")].

(** Faults on both variables of [pair_module]. *)
Definition both_injector : StuckAtInjector :=
  mkStuckAtInjector
    [mkFault stuck_at (lit "x") (lit "TRUE");
     mkFault stuck_at (lit "y") (lit "FALSE");
     mkFault stuck_at (lit "x") (lit "FALSE")].

(** A module text without any next-state block, and a fault on the
    variable [fault_mode] itself. *)
Definition plain_module : str := lit "MODULE Sensor
VAR
  reading : 0..3;
ASSIGN
  init(reading) := 0;
".

Definition fault_mode_injector : StuckAtInjector :=
  mkStuckAtInjector [mkFault stuck_at (lit "fault_mode") (lit "0")].

(** A module text whose toggle block holds a branch that tests the negated
    toggle in its condition and sets the toggle to a constant. *)
Definition toggle_module : str := lit "MODULE Client
VAR
  request_toggle : boolean;
ASSIGN
  next(request_toggle) := case
    !request_toggle & start : TRUE;
    state = receiving & !queue.empty : !request_toggle;
    TRUE : request_toggle;
  esac;
".

(** The same block with the flipping branch written on two lines. *)
Definition toggle_two_lines : str := lit "MODULE Client
ASSIGN
  next(request_toggle) := case
    state = receiving :
      !request_toggle;
    TRUE : request_toggle;
  esac;
".

(** [a] is [b] with some elements left out: [b] is [a] with insertions. *)
Inductive subseq {A : Type} : list A -> list A -> Prop :=
| subseq_nil : forall l, subseq [] l
| subseq_skip : forall x a b, subseq a b -> subseq a (x :: b)
| subseq_take : forall x a b, subseq a b -> subseq (x :: a) (x :: b).

(** A wrapper whose instance line has no parameter list. *)
Definition unparsed_model : str :=
  sensor_module ++ join wrapper_lines ++ lit "  s1 : process Sensor;
".

(** The test of [inject_stuck_at] on a line: its trimmed text is the
    keyword. *)
Definition is_exact (keyword line : str) : bool :=
  str_eqb (strip line) keyword.

(** What the loop of [inject_stuck_at] appends for the lines [lines], with
    the flags [inserted_var] and [inserted_assign] as they stand. *)
Fixpoint stuck_lines (fault : Fault) (inserted_var inserted_assign : bool)
  (lines : list str) : list str :=
  match lines with
  | [] => []
  | line :: rest =>
      line ::
      (if is_exact (lit "VAR") line && negb inserted_var
       then [stuck_decl] else []) ++
      (if is_exact (lit "ASSIGN") line && negb inserted_assign
       then [stuck_assign fault] else []) ++
      stuck_lines fault (inserted_var || is_exact (lit "VAR") line)
        (inserted_assign || is_exact (lit "ASSIGN") line) rest
  end.

(** The fault [f] is read from the element [e]: its fields are the
    trimmed texts of the children [type], [variable] and [value]. *)
Definition fault_read_from (e : Element) (f : Fault) : Prop :=
  exists ty var val,
    findtext e (lit "type") = Some ty /\
    findtext e (lit "variable") = Some var /\
    findtext e (lit "value") = Some val /\
    f = mkFault (strip ty) (strip var) (strip val).

(** The elements of a specification: the [fault] elements, and the text
    of the attribute [count], the text [1] standing for a missing
    attribute. *)
Definition fault_elements (root : Element) : list Element :=
  match find_child root (lit "faults") with
  | None => []
  | Some faults_elem => findall faults_elem (lit "fault")
  end.

Definition count_text (redundancy_elem : Element) : str :=
  match dict_get (elem_attrib redundancy_elem) (lit "count") with
  | Some c => c
  | None => lit "1"
  end.

Definition incomplete (e : Element) : bool :=
  match findtext e (lit "type"), findtext e (lit "variable"),
        findtext e (lit "value") with
  | Some _, Some _, Some _ => false
  | _, _, _ => true
  end.

(** What [parse_fault_model] finds wrong with the root element [root], in
    the order of its checks: no [model] child; then no [target-module]
    child; then a [redundancy] element whose count is no integer; then a
    [fault] element that lacks one of its three children. *)
Definition refused_root (py_int : str -> option Z) (root : Element)
  (e : xml_exn) : Prop :=
  (e = MissingModel /\ findtext root (lit "model") = None) \/
  (findtext root (lit "model") <> None /\
   ((e = MissingTargetModule /\
     findtext root (lit "target-module") = None) \/
    (findtext root (lit "target-module") <> None /\
     ((exists r,
          find_child root (lit "redundancy") = Some r /\
          py_int (count_text r) = None /\
          e = InvalidInteger (count_text r)) \/
      ((forall r, find_child root (lit "redundancy") = Some r ->
                  py_int (count_text r) <> None) /\
       e = IncompleteFault /\
       existsb incomplete (fault_elements root) = true))))).

(** A sample specification as a tree, one without faults, and the integers
    of their counts. *)
Definition leaf (tag text : str) : Element :=
  mkElement tag [] (Some text) [].

Definition sample_root : Element :=
  mkElement (lit "fault-injection") [] None
    [leaf (lit "model") (lit " model.smv ");
     leaf (lit "target-module") (lit "Sensor
");
     mkElement (lit "redundancy") [(lit "count", lit "3")] None [];
     mkElement (lit "faults") [] None
       [mkElement (lit "fault") [] None
          [leaf (lit "type") (lit "stuck-at");
           leaf (lit "variable") (lit " reading");
           leaf (lit "value") (lit "0 ")]]].

Definition faultless_root : Element :=
  mkElement (lit "fault-injection") [] None
    [leaf (lit "model") (lit "model.smv");
     leaf (lit "target-module") (lit "Sensor")].

Definition sample_int (s : str) : option Z :=
  if str_eqb s (lit "3") then Some 3%Z
  else if str_eqb s (lit "1") then Some 1%Z
  else None.

(** A text without line break, and a line that ends in a line feed and
    holds no other line break. *)
Definition no_break (s : str) : bool :=
  forallb (fun c => negb (is_linebreak c)) s.

Definition plain_line (line : str) : bool :=
  match rev line with
  | [] => false
  | c :: body => is_lf c && no_break body
  end.

(** The number of lines that are the declaration of [inject_stuck_at]. *)
Definition count_stuck_decl (lines : list str) : nat :=
  length (filter (str_eqb stuck_decl) lines).

(** A fault that [inject_faults] can apply, written on one line. *)
Definition one_line_fault (f : Fault) : Prop :=
  type f = lit "stuck_at" /\
  no_break (variable f) = true /\ no_break (value f) = true.

(** Two faults of the kind that [script.py] knows. *)
Definition script_faults : list Fault :=
  [mkFault (lit "stuck_at") (lit "reading") (lit "0");
   mkFault (lit "stuck_at") (lit "reading") (lit "3")].

(** * Properties *)

(** Equations between concatenations of texts. *)
Ltac app_norm :=
  repeat (progress (simpl; rewrite <- ?app_assoc)).

(** ** Lists and text *)

Lemma first_at_cons_false {A} (p : A -> bool) (x : A) (l : list A) i :
  p x = false ->
  first_at p (x :: l) i <-> exists k, i = S k /\ first_at p l k.
Proof.
  intros Hx. unfold first_at. split.
  - intros [[y [Hy Hpy]] Hlt]. destruct i as [|i].
    + simpl in Hy. congruence.
    + exists i. repeat split; [exists y; auto|].
      intros j z Hj Hz. apply (Hlt (S j)); [lia|exact Hz].
  - intros [k [-> [Hex Hlt]]]. split; [exact Hex|].
    intros [|j] y Hj Hy; simpl in Hy; [congruence|].
    apply (Hlt j); [lia|exact Hy].
Qed.

Lemma find_index_first {A} (p : A -> bool) (l : list A) (i : nat) :
  find_index p l = Some i <-> first_at p l i.
Proof.
  revert i; induction l as [|x l IH]; intros i; simpl.
  - split; [discriminate|].
    intros [[y [H _]] _]. destruct i; discriminate.
  - destruct (p x) eqn:Hx.
    + split.
      * intros [= <-]. split; [exists x; auto | intros j y Hj; lia].
      * intros [_ Hlt]. destruct i as [|i]; [reflexivity|].
        specialize (Hlt 0 x (Nat.lt_0_succ i) eq_refl). congruence.
    + rewrite first_at_cons_false by exact Hx. split.
      * intros H. destruct (find_index p l) as [k|] eqn:Hk;
          [|discriminate].
        injection H as <-. exists k. split; [reflexivity|].
        now apply IH.
      * intros [k [-> Hk]]. apply IH in Hk. now rewrite Hk.
Qed.

Lemma find_index_none {A} (p : A -> bool) (l : list A) :
  find_index p l = None <-> forall x, In x l -> p x = false.
Proof.
  induction l as [|x l IH]; simpl.
  - split; [intros _ y []|reflexivity].
  - destruct (p x) eqn:Hx.
    + split; [discriminate|]. intros H. rewrite (H x) in Hx; auto.
      discriminate.
    + destruct (find_index p l); simpl.
      * split; [discriminate|]. intros H.
        assert (Hn : Some n = None); [|discriminate].
        apply IH. intros y Hy. apply H. now right.
      * split; [|reflexivity]. intros _ y [<-|Hy]; [exact Hx|].
        apply IH; auto.
Qed.

Lemma find_index_lt {A} (p : A -> bool) (l : list A) (i : nat) :
  find_index p l = Some i -> i < length l.
Proof.
  intros H. apply find_index_first in H as [[x [Hx _]] _].
  apply nth_error_Some. congruence.
Qed.

Lemma startswith_app (p r : str) : startswith p (p ++ r) = true.
Proof.
  induction p as [|a p IH]; simpl; [reflexivity|].
  now rewrite Ascii.eqb_refl.
Qed.

Lemma startswith_prefix (p q s : str) :
  startswith (p ++ q) s = true -> startswith p s = true.
Proof.
  revert s; induction p as [|a p IH]; intros s; simpl; [reflexivity|].
  destruct s as [|b s]; [discriminate|].
  intros H. apply andb_true_iff in H as [Hab H].
  rewrite Hab. simpl. now apply IH.
Qed.

Lemma splitlines_join (s : str) : join (splitlines s) = s.
Proof.
  unfold join. induction s as [|c s IH]; simpl; [reflexivity|].
  destruct (ends_line c s); simpl.
  - now rewrite IH.
  - destruct (splitlines s) as [|l ls]; simpl in *.
    + now rewrite <- IH.
    + now rewrite <- IH.
Qed.

Lemma str_eqb_eq (a b : str) : str_eqb a b = true <-> a = b.
Proof.
  revert b; induction a as [|x a IH]; intros [|y b]; simpl;
    try (split; [discriminate|discriminate]); [tauto|].
  rewrite andb_true_iff, Ascii.eqb_eq, IH.
  split; [intros [-> ->]; reflexivity|intros [= -> ->]; auto].
Qed.

Lemma mem_In (x : str) (items : list str) : mem x items = true <-> In x items.
Proof.
  unfold mem. rewrite existsb_exists. split.
  - intros [y [Hy Heq]]. apply str_eqb_eq in Heq. now subst.
  - intros H. exists x. split; [exact H|now apply str_eqb_eq].
Qed.

Lemma set_of_In (x : str) (items : list str) :
  In x (set_of items) <-> In x items.
Proof.
  induction items as [|y items IH]; simpl; [tauto|].
  destruct (mem y items) eqn:Hy.
  - apply mem_In in Hy. rewrite IH. split; [auto|].
    intros [<-|H]; auto.
  - simpl. now rewrite IH.
Qed.

Lemma subset_incl (a b : list str) :
  subset a b = true <-> forall x, In x a -> In x b.
Proof.
  unfold subset. rewrite forallb_forall. split; intros H x Hx.
  - now apply mem_In, H.
  - now apply mem_In, H.
Qed.

Lemma strip_prefix_app (p s r : str) :
  strip_prefix p s = Some r -> s = p ++ r.
Proof.
  revert s; induction p as [|a p IH]; intros s; simpl.
  - now intros [= ->].
  - destruct s as [|b s]; [discriminate|].
    destruct (Ascii.eqb a b) eqn:Hab; [|discriminate].
    apply Ascii.eqb_eq in Hab as ->. intros H. now rewrite (IH _ H).
Qed.

Lemma strip_prefix_startswith (p s : str) :
  startswith p s = true <-> exists r, strip_prefix p s = Some r.
Proof.
  revert s; induction p as [|a p IH]; intros s; simpl.
  - split; [eauto|reflexivity].
  - destruct s as [|b s].
    + split; [discriminate|intros [r H]; discriminate].
    + destruct (Ascii.eqb a b); simpl; [apply IH|].
      split; [discriminate|intros [r H]; discriminate].
Qed.

Lemma span_app (f : ascii -> bool) (s a b : str) :
  span f s = (a, b) -> s = a ++ b /\ forallb f a = true.
Proof.
  revert a b; induction s as [|c s IH]; intros a b; simpl.
  - intros [= <- <-]. auto.
  - destruct (f c) eqn:Hc.
    + destruct (span f s) as [a' b'] eqn:Hs. intros [= <- <-].
      destruct (IH _ _ eq_refl) as [-> Hall]. simpl. now rewrite Hc.
    + intros [= <- <-]. auto.
Qed.

Lemma span_stop (f : ascii -> bool) (a : str) (c : ascii) (r : str) :
  forallb f a = true -> f c = false -> span f (a ++ c :: r) = (a, c :: r).
Proof.
  intros Ha Hc. induction a as [|x a IH]; simpl.
  - now rewrite Hc.
  - simpl in Ha. apply andb_true_iff in Ha as [Hx Ha].
    now rewrite Hx, (IH Ha).
Qed.

Lemma strip_prefix_same (p r : str) : strip_prefix p (p ++ r) = Some r.
Proof.
  induction p as [|c p IH]; simpl; [reflexivity|].
  now rewrite Ascii.eqb_refl.
Qed.

Lemma lazy_dots_until_app (p s a b : str) :
  lazy_dots_until p s = Some (a, b) ->
  s = a ++ p ++ b /\ forallb (fun c => negb (is_lf c)) a = true.
Proof.
  revert a b; induction s as [|c s IH]; intros a b; simpl.
  - destruct (strip_prefix p []) eqn:Hp; [|discriminate].
    intros [= <- <-]. apply strip_prefix_app in Hp. auto.
  - destruct (strip_prefix p (c :: s)) eqn:Hp.
    + intros [= <- <-]. apply strip_prefix_app in Hp. auto.
    + destruct (is_lf c) eqn:Hc; [discriminate|].
      destruct (lazy_dots_until p s) as [[a' b']|]; [|discriminate].
      intros [= <- <-]. destruct (IH _ _ eq_refl) as [-> Hall].
      simpl. now rewrite Hc.
Qed.

Lemma partition_at_app (p s a b : str) :
  partition_at p s = Some (a, b) -> s = a ++ p ++ b.
Proof.
  revert a b; induction s as [|c s IH]; intros a b; simpl.
  - destruct (strip_prefix p []) eqn:Hp; [|discriminate].
    intros [= <- <-]. now apply strip_prefix_app in Hp.
  - destruct (strip_prefix p (c :: s)) eqn:Hp.
    + intros [= <- <-]. now apply strip_prefix_app in Hp.
    + destruct (partition_at p s) as [[a' b']|]; [|discriminate].
      intros [= <- <-]. now rewrite (IH _ _ eq_refl).
Qed.

Lemma rstrip_split (s : str) :
  exists w, s = rstrip s ++ w /\ forallb is_space w = true.
Proof.
  unfold rstrip, lstrip.
  destruct (span is_space (rev s)) as [a b] eqn:Hsp. simpl.
  apply span_app in Hsp as [Hrev Ha].
  exists (rev a). split.
  - rewrite <- rev_app_distr, <- Hrev. now rewrite rev_involutive.
  - apply forallb_forall. intros c Hc. apply in_rev in Hc.
    rewrite forallb_forall in Ha. now apply Ha.
Qed.

Lemma startswith_iff (p s : str) :
  startswith p s = true <-> exists r, s = p ++ r.
Proof.
  rewrite strip_prefix_startswith. split.
  - intros [r H]. exists r. now apply strip_prefix_app.
  - intros [r ->]. apply strip_prefix_startswith, startswith_app.
Qed.

Lemma last_app_nonempty {A} (a l : list A) (d : A) :
  l <> [] -> last (a ++ l) d = last l d.
Proof.
  intros Hl. rewrite (app_removelast_last d Hl) at 1.
  now rewrite app_assoc, last_last.
Qed.

(** Trimming the right end does not change whether a text starts with a
    prefix that ends in a character other than white space. *)
Lemma startswith_rstrip (p s : str) :
  p <> [] -> is_space (last p " "%char) = false ->
  startswith p (rstrip s) = startswith p s.
Proof.
  intros Hp Hlast. destruct (rstrip_split s) as [w [Hs Hw]].
  destruct (startswith p (rstrip s)) eqn:Ht; symmetry.
  - apply startswith_iff in Ht as [r Hr]. apply startswith_iff.
    exists (r ++ w). rewrite Hs at 1. now rewrite Hr, <- app_assoc.
  - apply not_true_iff_false. intros H.
    apply startswith_iff in H as [r Hr].
    assert (Heq : p ++ r = rstrip s ++ w) by (rewrite <- Hr; exact Hs).
    apply app_eq_app in Heq as [l [[Hpl Hwl]|[Hrs _]]].
    + destruct l as [|c l].
      * rewrite app_nil_r in Hpl.
        assert (Hst : startswith p (rstrip s) = true).
        { apply startswith_iff. exists []. now rewrite app_nil_r. }
        congruence.
      * rewrite Hpl, last_app_nonempty in Hlast by discriminate.
        rewrite forallb_forall in Hw.
        assert (Hin : In (last (c :: l) " "%char) w).
        { rewrite Hwl. apply in_or_app. left.
          rewrite (app_removelast_last " "%char (l := c :: l)) at 2
            by discriminate.
          apply in_or_app. right. now left. }
        rewrite (Hw _ Hin) in Hlast. discriminate.
    + assert (Hst : startswith p (rstrip s) = true).
      { apply startswith_iff. now exists l. }
      congruence.
Qed.

(** ** The module locator *)

Lemma first_at_skipn {A} (p : A -> bool) (l : list A) (n k : nat) :
  first_at p (skipn n l) k <->
  (exists x, nth_error l (n + k) = Some x /\ p x = true) /\
  forall j y, n <= j < n + k -> nth_error l j = Some y -> p y = false.
Proof.
  unfold first_at. rewrite nth_error_skipn. split.
  - intros [Hex Hlt]. split; [exact Hex|].
    intros j y Hj Hy. apply (Hlt (j - n)); [lia|].
    rewrite nth_error_skipn. now replace (n + (j - n)) with j by lia.
  - intros [Hex Hlt]. split; [exact Hex|].
    intros j y Hj Hy. rewrite nth_error_skipn in Hy.
    apply (Hlt (n + j)); [lia|exact Hy].
Qed.

Lemma find_index_skipn_header (lines : list str) (s k : nat) :
  find_index is_any_module_header (skipn (s + 1) lines) = Some k <->
  next_header_at lines s (s + 1 + k).
Proof.
  rewrite find_index_first, first_at_skipn. unfold next_header_at. split.
  - intros [Hex Hlt]. repeat split; [lia|exact Hex|].
    intros j l Hj. apply Hlt. lia.
  - intros [_ [Hex Hlt]]. split; [exact Hex|].
    intros j l Hj. apply Hlt. lia.
Qed.

Lemma find_index_skipn_none (lines : list str) (s : nat) :
  find_index is_any_module_header (skipn (s + 1) lines) = None <->
  no_header_after lines s.
Proof.
  rewrite find_index_none. unfold no_header_after. split.
  - intros H j l Hj Hl. apply H.
    apply (nth_error_In _ (j - (s + 1))). rewrite nth_error_skipn.
    now replace (s + 1 + (j - (s + 1))) with j by lia.
  - intros H l Hl. apply In_nth_error in Hl as [k Hk].
    rewrite nth_error_skipn in Hk. apply (H (s + 1 + k)); [lia|exact Hk].
Qed.

(** C7.  [find_module] returns the half-open range of lines [(s, e)] where
    [s] is the first line whose trimmed text starts with [MODULE name], and
    [e] is the first module header line after [s], or the number of lines
    when no header follows; it raises the module-not-found error exactly
    when no line matches; it always does one or the other; and a header
    of a module whose name only begins with [name] is a match, the first
    such line winning.  The text is trimmed at both ends; for a name that
    is not empty and does not end in white space, trimming the leading
    white space alone gives the same test. *)
Theorem find_module_range (content module_name : str) :
  let lines := splitlines content in
  (forall s e,
      find_module content module_name = Ok (s, e) <->
      first_at (is_module_header module_name) lines s /\
      (next_header_at lines s e \/
       (no_header_after lines s /\ e = length lines))) /\
  (forall err,
      find_module content module_name = Raise err <->
      err = ModuleNotFound module_name /\
      forall l, In l lines -> is_module_header module_name l = false) /\
  (forall s e, find_module content module_name = Ok (s, e) ->
               s < e <= length lines) /\
  (forall i line rest,
      nth_error lines i = Some line ->
      strip line = lit "MODULE " ++ module_name ++ rest ->
      (forall j l, j < i -> nth_error lines j = Some l ->
                   is_module_header module_name l = false) ->
      exists e, find_module content module_name = Ok (i, e)) /\
  (forall line,
      module_name <> [] -> is_space (last module_name " "%char) = false ->
      is_module_header module_name line =
      startswith (lit "MODULE " ++ module_name) (lstrip line)).
Proof.
  intros lines. unfold find_module. fold lines.
  assert (Hnot_both : forall s e,
             next_header_at lines s e -> no_header_after lines s -> False).
  { intros s e [Hlt [[l [Hl Hh]] _]] Hno.
    rewrite (Hno e l Hlt Hl) in Hh. discriminate. }
  split; [|split; [|split; [|split]]].
  - intros s e. split.
    + intros H.
      destruct (find_index (is_module_header module_name) lines) as [st|]
        eqn:Hst; [|discriminate].
      destruct (find_index is_any_module_header (skipn (st + 1) lines))
        as [k|] eqn:Hk; injection H as <- <-;
        (split; [now apply find_index_first|]).
      * left. now apply find_index_skipn_header.
      * right. split; [now apply find_index_skipn_none|reflexivity].
    + intros [Hs He]. apply find_index_first in Hs. rewrite Hs.
      destruct He as [He|[Hno ->]].
      * destruct (find_index is_any_module_header (skipn (s + 1) lines))
          as [k|] eqn:Hk.
        -- apply find_index_skipn_header in Hk.
           destruct (Nat.lt_trichotomy e (s + 1 + k)) as [Hlt|[->|Hgt]];
             [exfalso|reflexivity|exfalso].
           ++ destruct He as [Hse [[l [Hl Hh]] _]].
              destruct Hk as [_ [_ Hk]].
              rewrite (Hk e l (conj Hse Hlt) Hl) in Hh. discriminate.
           ++ destruct Hk as [Hsk [[l [Hl Hh]] _]].
              destruct He as [_ [_ He]].
              rewrite (He _ l (conj Hsk Hgt) Hl) in Hh. discriminate.
        -- apply find_index_skipn_none in Hk.
           destruct (Hnot_both _ _ He Hk).
      * apply find_index_skipn_none in Hno. now rewrite Hno.
  - intros err. split.
    + destruct (find_index (is_module_header module_name) lines) as [st|]
        eqn:Hst.
      * destruct (find_index is_any_module_header (skipn (st + 1) lines));
          discriminate.
      * intros [= <-]. split; [reflexivity|now apply find_index_none].
    + intros [-> Hall]. apply find_index_none in Hall. now rewrite Hall.
  - intros s e H.
    destruct (find_index (is_module_header module_name) lines) as [st|]
      eqn:Hst; [|discriminate].
    destruct (find_index is_any_module_header (skipn (st + 1) lines))
      as [k|] eqn:Hk; injection H as <- <-.
    + apply find_index_skipn_header in Hk as [_ [[l [Hl _]] _]].
      split; [lia|]. apply Nat.lt_le_incl, nth_error_Some. congruence.
    + apply find_index_lt in Hst. lia.
  - intros i line rest Hline Hstrip Hfirst.
    assert (Hi : find_index (is_module_header module_name) lines = Some i).
    { apply find_index_first. split; [|exact Hfirst].
      exists line. split; [exact Hline|].
      unfold is_module_header. rewrite Hstrip, app_assoc.
      apply startswith_app. }
    rewrite Hi.
    destruct (find_index is_any_module_header (skipn (i + 1) lines));
      eexists; reflexivity.
  - intros line Hne Hlast. unfold is_module_header, strip.
    apply startswith_rstrip.
    + now destruct module_name.
    + now rewrite last_app_nonempty.
Qed.

(** ** The engine and its injector *)

(** What [_create_injector] does with a fault list.  Creating the injector
    raises the unsupported-kind error exactly when the fault list is empty
    or holds a fault whose kind is not [stuck-at]; otherwise it returns an
    injector over the faults. *)
Theorem create_injector_raises (fm : FaultModel) :
  ((exists e, _create_injector fm = Raise e) <->
   faults fm = [] \/ exists f, In f (faults fm) /\ type f <> stuck_at) /\
  (_create_injector fm = Ok (mkStuckAtInjector (faults fm)) <->
   faults fm <> [] /\ forall f, In f (faults fm) -> type f = stuck_at) /\
  (forall e, _create_injector fm = Raise e ->
             e = UnsupportedFaultTypes (set_of (map type (faults fm)))).
Proof.
  unfold _create_injector.
  assert (Hset : set_eqb (set_of (map type (faults fm))) [stuck_at] = true
                 <-> faults fm <> [] /\
                     forall f, In f (faults fm) -> type f = stuck_at).
  { unfold set_eqb. rewrite andb_true_iff, !subset_incl. split.
    - intros [H1 H2]. split.
      + intros Hnil. specialize (H2 stuck_at (or_introl eq_refl)).
        rewrite Hnil in H2. exact H2.
      + intros f Hf.
        assert (Hin : In (type f) [stuck_at]).
        { apply H1, set_of_In, in_map, Hf. }
        destruct Hin as [Heq|[]]. now symmetry.
    - intros [Hne Hall]. split.
      + intros x Hx. apply set_of_In, in_map_iff in Hx as [f [<- Hf]].
        left. symmetry. now apply Hall.
      + intros x [<-|[]]. apply set_of_In.
        destruct (faults fm) as [|f fs]; [congruence|].
        left. apply Hall. now left. }
  destruct (set_eqb (set_of (map type (faults fm))) [stuck_at]) eqn:Heq.
  - destruct (proj1 Hset eq_refl) as [Hne Hall].
    split; [|split].
    + split; [intros [e He]; discriminate|].
      intros [Hnil|[f [Hf Hty]]]; [congruence|].
      destruct Hty. now apply Hall.
    + split; auto.
    + discriminate.
  - split; [|split].
    + split; [|eauto]. intros _.
      destruct (faults fm) as [|f0 fs] eqn:Hfs; [now left|right].
      destruct (forallb (fun f => str_eqb (type f) stuck_at) (f0 :: fs))
        eqn:Hall.
      * rewrite forallb_forall in Hall.
        assert (Hcontra : false = true); [|discriminate].
        apply Hset. split; [discriminate|].
        intros f Hf. now apply str_eqb_eq, Hall.
      * apply not_true_iff_false in Hall.
        destruct (existsb (fun f => negb (str_eqb (type f) stuck_at))
                    (f0 :: fs)) eqn:Hex.
        -- apply existsb_exists in Hex as [f [Hf Hneg]].
           exists f. split; [exact Hf|].
           intros Hty. apply str_eqb_eq in Hty. rewrite Hty in Hneg.
           discriminate.
        -- destruct Hall. apply forallb_forall. intros f Hf.
           destruct (str_eqb (type f) stuck_at) eqn:Hty; [reflexivity|].
           assert (Hcontra : existsb
                     (fun f => negb (str_eqb (type f) stuck_at))
                     (f0 :: fs) = true); [|congruence].
           apply existsb_exists. exists f. now rewrite Hty.
    + split; [discriminate|]. intros H. apply Hset in H. discriminate.
    + now intros e [= <-].
Qed.

(** C5.  The claim has no error for an empty fault list, a fault model
    that asks for no rewriting.  The code on that input: the list holds no
    fault of another kind, and creating the injector raises the
    unsupported-kind error, with an empty set of kinds to name. *)
Lemma create_injector_empty_raises :
  let fm := mkFaultModel (lit "model.smv") (lit "Sensor") 1 [] in
  ~ (exists f, In f (faults fm) /\ type f <> stuck_at) /\
  _create_injector fm = Raise (UnsupportedFaultTypes []).
Proof.
  split; [intros [f [[] _]]|reflexivity].
Qed.

(** ** Redundancy replication *)

Lemma contains_prefix (p q s : str) :
  contains (p ++ q) s = true -> contains p s = true.
Proof.
  induction s as [|c s IH]; simpl; rewrite !orb_true_iff.
  - intros [H|H]; [left; now apply startswith_prefix with q|discriminate].
  - intros [H|H]; [left; now apply startswith_prefix with q|right; auto].
Qed.

Lemma range_length (lo hi : Z) : length (range lo hi) = Z.to_nat (hi - lo).
Proof. unfold range. now rewrite length_map, length_seq. Qed.

Lemma range_nth (lo hi : Z) (k : nat) :
  k < Z.to_nat (hi - lo) ->
  nth_error (range lo hi) k = Some (lo + Z.of_nat k)%Z.
Proof.
  intros Hk. unfold range. rewrite nth_error_map, nth_error_nth' with (d := 0).
  - now rewrite seq_nth.
  - now rewrite length_seq.
Qed.

Lemma fold_replicate_step (fm : FaultModel) (ls acc : list str) (b : bool) :
  fold_left (replicate_step fm) ls (acc, b) =
  (acc ++ flat_map (expand_line fm) ls,
   b || existsb (contains (instance_needle fm)) ls).
Proof.
  revert acc b; induction ls as [|line ls IH]; intros acc b;
    cbn [fold_left flat_map existsb].
  - now rewrite app_nil_r, orb_false_r.
  - destruct (replicate_step fm (acc, b) line) as [acc' b'] eqn:Hstep.
    rewrite IH. unfold replicate_step in Hstep. unfold expand_line.
    destruct (contains (instance_needle fm) line).
    + destruct (match_instance line) as [[[[i n] m] ps]|];
        injection Hstep as <- <-;
        now rewrite <- app_assoc, orb_true_r.
    + injection Hstep as <- <-. now rewrite <- app_assoc.
Qed.

Lemma expand_line_other (fm : FaultModel) (ls : list str) :
  (forall l, In l ls -> contains (instance_needle fm) l = false) ->
  flat_map (expand_line fm) ls = ls.
Proof.
  induction ls as [|l ls IH]; intros H; simpl; [reflexivity|].
  unfold expand_line at 1. rewrite (H l (or_introl eq_refl)). simpl.
  f_equal. apply IH. intros l' Hl'. apply H. now right.
Qed.

Lemma existsb_contains_false (p : str) (ls : list str) :
  (forall l, In l ls -> contains p l = false) ->
  existsb (contains p) ls = false.
Proof.
  intros H. apply not_true_iff_false. intros Hex.
  apply existsb_exists in Hex as [l [Hl Hc]]. rewrite (H l Hl) in Hc.
  discriminate.
Qed.

Lemma match_instance_shape (line indent name module params : str) :
  match_instance line = Some (indent, name, module, params) ->
  exists ws1 ws2 ws3 rest,
    line = indent ++ name ++ ws1 ++ lit ":" ++ ws2 ++ lit "process" ++ ws3 ++
           module ++ lit "(" ++ params ++ lit ");" ++ rest /\
    forallb is_space indent = true /\
    forallb is_word name = true /\ name <> [] /\
    forallb is_word module = true /\ module <> [] /\
    forallb is_space ws3 = true /\ ws3 <> [] /\
    forallb (fun c => negb (is_lf c)) params = true.
Proof.
  unfold match_instance.
  destruct (span is_space line) as [ind r0] eqn:H0.
  destruct (span is_word r0) as [nm r1] eqn:H1.
  destruct nm as [|n0 nm]; [discriminate|].
  destruct (span is_space r1) as [w1 r2] eqn:H2.
  destruct (strip_prefix (lit ":") r2) as [r3|] eqn:H3; [|discriminate].
  destruct (span is_space r3) as [w2 r4] eqn:H4.
  destruct (strip_prefix (lit "process") r4) as [r5|] eqn:H5;
    [|discriminate].
  destruct (span is_space r5) as [w3 r6] eqn:H6.
  destruct (span is_word r6) as [md r7] eqn:H7.
  destruct w3 as [|w0 w3]; [discriminate|].
  destruct md as [|m0 md]; [discriminate|].
  destruct (strip_prefix (lit "(") r7) as [r8|] eqn:H8; [|discriminate].
  destruct (lazy_dots_until (lit ");") r8) as [[ps rest]|] eqn:H9;
    [|discriminate].
  intros [= <- <- <- <-].
  apply span_app in H0 as [-> Hind], H1 as [-> Hnm], H2 as [-> _],
    H4 as [-> _], H6 as [-> Hw3], H7 as [-> Hmd].
  apply strip_prefix_app in H3 as ->, H5 as ->, H8 as ->.
  apply lazy_dots_until_app in H9 as [-> Hps].
  exists w1, w2, (w0 :: w3), rest.
  repeat split; try assumption; try discriminate.
Qed.

Section Replication.

Variable self : FaultInjectionEngine.
Variable smv_content : str.

Let fm := fault_model self.
Let lines := splitlines smv_content.

Lemma replicate_found (s e : nat) :
  (2 <= redundancy fm)%Z ->
  find_module smv_content (lit "NominalR") = Ok (s, e) ->
  replicate_for_redundancy self smv_content =
  if existsb (contains (instance_needle fm)) (slice s e lines)
  then (join (firstn s lines) ++
        join (flat_map (expand_line fm) (slice s e lines)) ++
        join (skipn e lines), [])
  else (smv_content, [warning_no_instance fm]).
Proof.
  intros HN Hfind. unfold replicate_for_redundancy. fold fm.
  destruct (redundancy fm <=? 1)%Z eqn:Hle; [apply Z.leb_le in Hle; lia|].
  rewrite Hfind. fold lines. rewrite fold_replicate_step. simpl.
  now destruct (existsb (contains (instance_needle fm)) (slice s e lines)).
Qed.

(** C9.  With a redundancy count of two or more, a model text without the
    wrapper module [NominalR], or whose wrapper has no line that holds
    [: process <target>], comes back unchanged, with one warning printed;
    the function returns in both cases. *)
Theorem replicate_soft_failures :
  (2 <= redundancy fm)%Z ->
  ((exists err, find_module smv_content (lit "NominalR") = Raise err) ->
   replicate_for_redundancy self smv_content =
   (smv_content, [warning_no_wrapper])) /\
  (forall s e,
      find_module smv_content (lit "NominalR") = Ok (s, e) ->
      (forall line, In line (slice s e lines) ->
                    contains (instance_needle fm) line = false) ->
      replicate_for_redundancy self smv_content =
      (smv_content, [warning_no_instance fm])).
Proof.
  intros HN. split.
  - intros [err Herr]. unfold replicate_for_redundancy. fold fm.
    destruct (redundancy fm <=? 1)%Z eqn:Hle; [apply Z.leb_le in Hle; lia|].
    now rewrite Herr.
  - intros s e Hfind Hnone. rewrite (replicate_found HN Hfind).
    now rewrite existsb_contains_false.
Qed.

(** C8.  With a count of at most one the text comes back as it is, and
    nothing is printed.  With a count [N] of two or more, when the wrapper
    module holds one line with [: process <target>] and that line has the
    shape of an instance declaration, the line is replaced by [N] lines,
    the [k]-th declaring [<name>_k] with the indentation, the module name
    and the parameters of the original line; all other lines are kept. *)
Theorem replicate_single_instance :
  ((redundancy fm <= 1)%Z ->
   replicate_for_redundancy self smv_content = (smv_content, [])) /\
  (forall s e above line below indent name module params,
      (2 <= redundancy fm)%Z ->
      find_module smv_content (lit "NominalR") = Ok (s, e) ->
      slice s e lines = above ++ line :: below ->
      (forall l, In l above \/ In l below ->
                 contains (instance_needle fm) l = false) ->
      contains (instance_needle fm) line = true ->
      match_instance line = Some (indent, name, module, params) ->
      let instances :=
        map (new_instance indent name module params)
          (range 1 (redundancy fm + 1)) in
      replicate_for_redundancy self smv_content =
      (join (firstn s lines) ++ join above ++ join instances ++
       join below ++ join (skipn e lines), []) /\
      length instances = Z.to_nat (redundancy fm) /\
      (forall k, k < Z.to_nat (redundancy fm) ->
         nth_error instances k =
         Some (indent ++ name ++ lit "_" ++ str_of_Z (Z.of_nat (k + 1)) ++
               lit " : process " ++ module ++ lit "(" ++ params ++
               lit ");" ++ nl)) /\
      exists ws1 ws2 ws3 rest,
        line = indent ++ name ++ ws1 ++ lit ":" ++ ws2 ++ lit "process" ++
               ws3 ++ module ++ lit "(" ++ params ++ lit ");" ++ rest).
Proof.
  split.
  - intros Hle. unfold replicate_for_redundancy. fold fm.
    apply Z.leb_le in Hle. now rewrite Hle.
  - intros s e above line below indent name module params HN Hfind Hslice
      Hother Hline Hmatch instances.
    assert (Hexp : expand_line fm line = instances).
    { unfold expand_line. now rewrite Hline, Hmatch. }
    split; [|split; [|split]].
    + rewrite (replicate_found HN Hfind), Hslice.
      rewrite existsb_app. simpl. rewrite Hline, orb_true_r.
      rewrite flat_map_app. simpl.
      rewrite !expand_line_other by (intros l Hl; apply Hother; auto).
      rewrite Hexp. unfold join. now rewrite !concat_app, <- !app_assoc.
    + unfold instances. rewrite length_map, range_length. f_equal. lia.
    + intros k Hk. unfold instances. rewrite nth_error_map, range_nth.
      * cbn [option_map].
        now replace (1 + Z.of_nat k)%Z with (Z.of_nat (k + 1)) by lia.
      * replace (redundancy fm + 1 - 1)%Z with (redundancy fm) by lia.
        exact Hk.
    + destruct (match_instance_shape _ Hmatch)
        as [ws1 [ws2 [ws3 [rest [Hshape _]]]]].
      now exists ws1, ws2, ws3, rest.
Qed.

(** C10.  With a count of two or more and the wrapper module found, as soon
    as one line of the wrapper holds [: process <target>], every line of
    the wrapper is handled on its own: a line that holds the needle and has
    the shape of an instance declaration becomes the [N] suffixed
    instances, any other line is kept.  The test is a substring test: a
    line that instantiates a module whose name begins with the target's
    name holds the needle too. *)
Theorem replicate_expands_every_match (s e : nat) :
  (2 <= redundancy fm)%Z ->
  find_module smv_content (lit "NominalR") = Ok (s, e) ->
  (existsb (contains (instance_needle fm)) (slice s e lines) = true ->
   replicate_for_redundancy self smv_content =
   (join (firstn s lines) ++
    join (flat_map (expand_line fm) (slice s e lines)) ++
    join (skipn e lines), [])) /\
  (forall line indent name module params,
      contains (instance_needle fm) line = true ->
      match_instance line = Some (indent, name, module, params) ->
      expand_line fm line =
      map (new_instance indent name module params)
        (range 1 (redundancy fm + 1)) /\
      length (expand_line fm line) = Z.to_nat (redundancy fm)) /\
  (forall line,
      contains (instance_needle fm) line = false ->
      expand_line fm line = [line]) /\
  (forall line rest,
      contains (lit ": process " ++ target_module fm ++ rest) line = true ->
      contains (instance_needle fm) line = true).
Proof.
  intros HN Hfind. split; [|split; [|split]].
  - intros Hex. now rewrite (replicate_found HN Hfind), Hex.
  - intros line indent name module params Hline Hmatch.
    unfold expand_line. rewrite Hline, Hmatch. split; [reflexivity|].
    rewrite length_map, range_length. f_equal. lia.
  - intros line Hline. unfold expand_line. now rewrite Hline.
  - intros line rest H. unfold instance_needle.
    apply contains_prefix with rest. now rewrite <- app_assoc.
Qed.

End Replication.

(** ** The search for a next-state block *)

Lemma match_next_header_shape (v s g1 r : str) :
  match_next_header v s = Some (g1, r) ->
  s = g1 ++ r /\
  exists ws1 ws2,
    g1 = lit "next(" ++ v ++ lit ")" ++ ws1 ++ lit ":=" ++ ws2 ++ lit "case" /\
    forallb is_space ws1 = true /\ forallb is_space ws2 = true.
Proof.
  unfold match_next_header.
  destruct (strip_prefix (lit "next(" ++ v ++ lit ")") s) as [r0|] eqn:H0;
    [|discriminate].
  destruct (span is_space r0) as [ws1 r1] eqn:H1.
  destruct (strip_prefix (lit ":=") r1) as [r2|] eqn:H2; [|discriminate].
  destruct (span is_space r2) as [ws2 r3] eqn:H3.
  destruct (strip_prefix (lit "case") r3) as [r4|] eqn:H4; [|discriminate].
  intros [= <- <-].
  apply strip_prefix_app in H0 as ->, H2 as ->, H4 as ->.
  apply span_app in H1 as [-> Hws1], H3 as [-> Hws2].
  split.
  - now app_norm.
  - exists ws1, ws2. split; [now app_norm|auto].
Qed.

Lemma match_case_block_at_shape (v s : str) (m : case_match) :
  match_case_block_at v s = Some m ->
  s = group1 m ++ group2 m ++ group3 m ++ after m /\
  before m = [] /\ group3 m = lit "esac;" /\
  exists ws1 ws2,
    group1 m =
      lit "next(" ++ v ++ lit ")" ++ ws1 ++ lit ":=" ++ ws2 ++ lit "case" /\
    forallb is_space ws1 = true /\ forallb is_space ws2 = true.
Proof.
  unfold match_case_block_at.
  destruct (match_next_header v s) as [[g1 r]|] eqn:Hh; [|discriminate].
  destruct (partition_at (lit "esac;") r) as [[g2 rest]|] eqn:Hp;
    [|discriminate].
  intros [= <-]. simpl.
  apply match_next_header_shape in Hh as [-> Hg1].
  apply partition_at_app in Hp as ->. auto.
Qed.

Lemma search_case_block_shape (v s : str) (m : case_match) :
  search_case_block v s = Some m ->
  s = before m ++ group1 m ++ group2 m ++ group3 m ++ after m /\
  group3 m = lit "esac;" /\
  exists ws1 ws2,
    group1 m =
      lit "next(" ++ v ++ lit ")" ++ ws1 ++ lit ":=" ++ ws2 ++ lit "case" /\
    forallb is_space ws1 = true /\ forallb is_space ws2 = true.
Proof.
  revert m; induction s as [|c s IH]; intros m; simpl.
  - discriminate.
  - destruct (match_case_block_at v (c :: s)) as [m0|] eqn:H0.
    + intros [= <-].
      destruct (match_case_block_at_shape _ _ H0) as [Hs [Hb [H3 Hg]]].
      rewrite Hb. auto.
    + destruct (search_case_block v s) as [m1|]; [|discriminate].
      intros [= <-]. simpl.
      destruct (IH _ eq_refl) as [Hs [H3 Hg]].
      split; [now rewrite Hs at 1|auto].
Qed.

Lemma fault_cases_fold (fs : list Fault) (acc : str) :
  fold_left (fun acc fault => acc ++ fault_case fault) fs acc =
  acc ++ concat (map fault_case fs).
Proof.
  revert acc; induction fs as [|f fs IH]; intros acc; simpl.
  - now rewrite app_nil_r.
  - now rewrite IH, <- app_assoc.
Qed.

Lemma inject_into_next_assignment_found (text v : str) (fs : list Fault)
  (m : case_match) :
  search_case_block v text = Some m ->
  _inject_into_next_assignment text v fs =
  Ok (before m ++ group1 m ++ nl ++ concat (map fault_case fs) ++
      group2 m ++ lit "    esac;" ++ after m).
Proof.
  intros Hm. unfold _inject_into_next_assignment. rewrite Hm.
  destruct (search_case_block_shape _ _ Hm) as [_ [H3 _]].
  rewrite H3, fault_cases_fold. f_equal.
  now rewrite <- !app_assoc.
Qed.

(** ** Grouping the faults by variable *)

Lemma group_add_keys (key : str) (f : Fault) (g : list (str * list Fault)) :
  map fst (group_add key f g) =
  if mem key (map fst g) then map fst g else map fst g ++ [key].
Proof.
  induction g as [|[k fs] g IH]; simpl; [reflexivity|].
  destruct (str_eqb k key) eqn:Hk.
  - apply str_eqb_eq in Hk as ->.
    assert (H : str_eqb key key = true) by now apply str_eqb_eq.
    now rewrite H.
  - assert (H : str_eqb key k = false).
    { apply not_true_iff_false. intros H. apply str_eqb_eq in H.
      subst. assert (Hr : str_eqb k k = true) by now apply str_eqb_eq.
      congruence. }
    rewrite H. simpl. rewrite IH. now destruct (mem key (map fst g)).
Qed.

Lemma group_add_In (key : str) (f : Fault) (g : list (str * list Fault))
  (k : str) (fs : list Fault) :
  NoDup (map fst g) ->
  In (k, fs) (group_add key f g) ->
  (k <> key /\ In (k, fs) g) \/
  (k = key /\
   ((exists fs0, In (key, fs0) g /\ fs = fs0 ++ [f]) \/
    (~ In key (map fst g) /\ fs = [f]))).
Proof.
  induction g as [|[k0 fs0] g IH]; simpl; intros Hnd Hin.
  - destruct Hin as [[= <- <-]|[]]. right. split; [reflexivity|].
    right. split; [tauto|reflexivity].
  - inversion Hnd as [|? ? Hnotin Hnd']; subst.
    destruct (str_eqb k0 key) eqn:Hk.
    + apply str_eqb_eq in Hk as ->.
      destruct Hin as [[= <- <-]|Hin].
      * right. split; [reflexivity|]. left. exists fs0. auto.
      * left. split; [|now right]. intros ->. apply Hnotin.
        apply in_map_iff. now exists (key, fs).
    + assert (Hne : k0 <> key).
      { intros ->. assert (Hr : str_eqb key key = true)
          by now apply str_eqb_eq. congruence. }
      destruct Hin as [[= <- <-]|Hin].
      * left. split; [exact Hne|now left].
      * destruct (IH Hnd' Hin) as [[Hkk Hg]|[-> [[fs1 [Hg ->]]|[Hno ->]]]].
        -- left. split; [exact Hkk|now right].
        -- right. split; [reflexivity|]. left. exists fs1. auto.
        -- right. split; [reflexivity|]. right.
           split; [|reflexivity]. intros [Heq|Hin']; [congruence|tauto].
Qed.

Lemma has_variable_refl (f : Fault) : has_variable (variable f) f = true.
Proof. unfold has_variable. now apply str_eqb_eq. Qed.

Lemma has_variable_neq (k : str) (f : Fault) :
  k <> variable f -> has_variable k f = false.
Proof.
  intros Hne. unfold has_variable. apply not_true_iff_false.
  intros H. apply str_eqb_eq in H. congruence.
Qed.

Lemma grouped_step (l : list Fault) (g : list (str * list Fault))
  (f : Fault) :
  grouped l g -> grouped (l ++ [f]) (group_add (variable f) f g).
Proof.
  intros [Hfs [Hnd Hkeys]]. split; [|split].
  - intros k fs Hin. rewrite filter_app. simpl.
    destruct (group_add_In _ _ _ _ _ Hnd Hin)
      as [[Hne Hg]|[-> [[fs0 [Hg ->]]|[Hno ->]]]].
    + rewrite has_variable_neq by exact Hne. rewrite app_nil_r.
      now apply Hfs.
    + rewrite has_variable_refl. destruct (Hfs _ _ Hg) as [<- _].
      split; [reflexivity|]. now destruct fs0.
    + rewrite has_variable_refl.
      assert (Hnil : filter (has_variable (variable f)) l = []).
      { destruct (filter (has_variable (variable f)) l) as [|f0 r] eqn:Hf;
          [reflexivity|].
        assert (Hin0 : In f0 (filter (has_variable (variable f)) l))
          by (rewrite Hf; now left).
        apply filter_In in Hin0 as [Hl Hv]. apply str_eqb_eq in Hv.
        destruct Hno. rewrite <- Hv. now apply Hkeys. }
      rewrite Hnil. split; [reflexivity|discriminate].
  - rewrite group_add_keys.
    destruct (mem (variable f) (map fst g)) eqn:Hm; [exact Hnd|].
    apply NoDup_app; [exact Hnd|repeat constructor; intros []|].
    intros k Hk [<-|[]].
    apply mem_In in Hk. congruence.
  - intros f0 Hin. rewrite group_add_keys.
    destruct (mem (variable f) (map fst g)) eqn:Hm.
    + apply in_app_or in Hin as [Hin|[<-|[]]]; [now apply Hkeys|].
      now apply mem_In.
    + apply in_or_app.
      apply in_app_or in Hin as [Hin|[<-|[]]]; [left; now apply Hkeys|].
      right. now left.
Qed.

Lemma grouped_fold (l l0 : list Fault) (g0 : list (str * list Fault)) :
  grouped l0 g0 ->
  grouped (l0 ++ l)
    (fold_left (fun groups fault => group_add (variable fault) fault groups)
       l g0).
Proof.
  revert l0 g0; induction l as [|f l IH]; intros l0 g0 H; simpl.
  - now rewrite app_nil_r.
  - replace (l0 ++ f :: l) with ((l0 ++ [f]) ++ l)
      by now rewrite <- app_assoc.
    apply IH. now apply grouped_step.
Qed.

Lemma faults_by_var_grouped (self : StuckAtInjector) :
  grouped (self_faults self) (faults_by_var self).
Proof.
  unfold faults_by_var.
  apply (grouped_fold (self_faults self) (l0 := []) (g0 := [])).
  split; [intros k fs []|split; [constructor|intros f []]].
Qed.

(** ** Section headers and the inserted lines *)

Lemma span_snoc_rest (f : ascii -> bool) (a : str) (c : ascii) :
  f c = false -> exists t, snd (span f (a ++ [c])) = t ++ [c].
Proof.
  intros Hc. induction a as [|x a IH]; simpl.
  - rewrite Hc. now exists [].
  - destruct (f x).
    + destruct (span f (a ++ [c])) as [u w]. exact IH.
    + now exists (x :: a).
Qed.

Lemma rstrip_cons (c : ascii) (s : str) :
  is_space c = false -> exists t, rstrip (c :: s) = c :: t.
Proof.
  intros Hc. unfold rstrip, lstrip. simpl.
  destruct (@span_snoc_rest is_space (rev s) c Hc) as [t Ht].
  rewrite Ht, rev_app_distr. simpl. now exists (rev t).
Qed.

Lemma is_section_head (k c : ascii) (ks line rest : str) :
  lstrip line = c :: rest -> is_space c = false -> Ascii.eqb k c = false ->
  is_section (k :: ks) line = false.
Proof.
  intros Hl Hc Hk. unfold is_section, strip. rewrite Hl.
  destruct (@rstrip_cons c rest Hc) as [t ->]. simpl. now rewrite Hk.
Qed.

Lemma decl_not_section (self : StuckAtInjector) (k : ascii) (ks : str) :
  Ascii.eqb k "f" = false ->
  is_section (k :: ks) (fault_mode_decl self) = false.
Proof.
  intros Hk.
  apply (@is_section_head k "f" ks (fault_mode_decl self)
           (lit "ault_mode : {" ++ get_fault_mode_enum self ++ lit "};" ++
            nl)); [reflexivity|reflexivity|exact Hk].
Qed.

Lemma init_not_section (k : ascii) (ks : str) :
  Ascii.eqb k "i" = false -> is_section (k :: ks) init_fault = false.
Proof.
  intros Hk.
  apply (@is_section_head k "i" ks init_fault
           (lit "nit(fault_mode) := none;" ++ nl ++ nl));
    [reflexivity|reflexivity|exact Hk].
Qed.

Lemma next_not_section (self : StuckAtInjector) (k : ascii) (ks : str) :
  Ascii.eqb k "n" = false ->
  is_section (k :: ks) (_generate_next_fault_mode self) = false.
Proof.
  intros Hk.
  apply (@is_section_head k "n" ks (_generate_next_fault_mode self)
           (skipn 5 (_generate_next_fault_mode self)));
    [reflexivity|reflexivity|exact Hk].
Qed.

(** ** Insertion into the list of lines *)

Lemma nth_error_insert_lt {A} (i j : nat) (x : A) (l : list A) :
  j < i -> i <= length l ->
  nth_error (list_insert i x l) j = nth_error l j.
Proof.
  unfold list_insert.
  revert i j; induction l as [|y l IH]; intros i j Hj Hi; simpl in Hi.
  - lia.
  - destruct i as [|i]; [lia|]. destruct j as [|j]; simpl; [reflexivity|].
    apply IH; lia.
Qed.

Lemma nth_error_insert_eq {A} (i : nat) (x : A) (l : list A) :
  i <= length l -> nth_error (list_insert i x l) i = Some x.
Proof.
  unfold list_insert. revert i; induction l as [|y l IH]; intros i Hi.
  - simpl in Hi. assert (i = 0) as -> by lia. reflexivity.
  - destruct i as [|i]; simpl; [reflexivity|]. apply IH. simpl in Hi. lia.
Qed.

Lemma nth_error_insert_gt {A} (i j : nat) (x : A) (l : list A) :
  i <= j -> nth_error (list_insert i x l) (S j) = nth_error l j.
Proof.
  unfold list_insert. revert i j; induction l as [|y l IH]; intros i j Hj.
  - rewrite firstn_nil, skipn_nil. simpl. now destruct j.
  - destruct i as [|i]; simpl; [reflexivity|].
    destruct j as [|j]; [lia|]. simpl. apply IH. lia.
Qed.

Lemma list_insert_length {A} (i : nat) (x : A) (l : list A) :
  length (list_insert i x l) = S (length l).
Proof.
  unfold list_insert. rewrite length_app. simpl.
  rewrite <- (firstn_skipn i l) at 3. rewrite length_app. lia.
Qed.

Lemma list_insert_perm {A} (i : nat) (x : A) (l : list A) :
  Permutation (list_insert i x l) (x :: l).
Proof.
  unfold list_insert. rewrite <- (firstn_skipn i l) at 3.
  symmetry. apply Permutation_middle.
Qed.

Lemma find_index_insert {A} (p : A -> bool) (i : nat) (x : A) (l : list A) :
  p x = false ->
  find_index p (list_insert i x l) =
  option_map (fun k => if k <? i then k else S k) (find_index p l).
Proof.
  intros Hx. unfold list_insert.
  revert i; induction l as [|y l IH]; intros i.
  - rewrite firstn_nil, skipn_nil. simpl. now rewrite Hx.
  - destruct i as [|i]; simpl.
    + rewrite Hx. destruct (p y); [reflexivity|].
      now destruct (find_index p l).
    + destruct (p y); [reflexivity|]. rewrite IH.
      destruct (find_index p l) as [k|]; simpl; [|reflexivity].
      change (S k <? S i) with (k <? i). now destruct (k <? i).
Qed.

(** ** The position of the assignment to [fault_mode] *)

Lemma last_index_last {A} (p : A -> bool) (l : list A) (k : nat) :
  last_index p l = Some k -> last_at p l k.
Proof.
  revert k; induction l as [|x l IH]; intros k; simpl; [discriminate|].
  destruct (last_index p l) as [k'|] eqn:Hk.
  - intros [= <-]. destruct (IH _ eq_refl) as [Hex Hgt].
    split; [exact Hex|].
    intros [|j] y Hj Hy; [lia|]. apply (Hgt j); [lia|exact Hy].
  - destruct (p x) eqn:Hx; [|discriminate]. intros [= <-].
    split; [exists x; auto|].
    intros [|j] y Hj Hy; [lia|]. simpl in Hy.
    assert (Hnone : forall z, In z l -> p z = false).
    { clear -Hk. induction l as [|w l IHl]; intros z []; simpl in Hk;
        destruct (last_index p l); try discriminate;
        destruct (p w) eqn:Hw; try discriminate; subst; auto. }
    apply Hnone. now apply nth_error_In with j.
Qed.

Lemma last_index_none {A} (p : A -> bool) (l : list A) :
  last_index p l = None -> forall x, In x l -> p x = false.
Proof.
  induction l as [|w l IH]; intros Hk z []; simpl in Hk;
    destruct (last_index p l); try discriminate;
    destruct (p w) eqn:Hw; try discriminate; subst; auto.
Qed.

Lemma last_index_lt {A} (p : A -> bool) (l : list A) (k : nat) :
  last_index p l = Some k -> k < length l.
Proof.
  intros H. apply last_index_last in H as [[x [Hx _]] _].
  apply nth_error_Some. congruence.
Qed.

Lemma scan_insert_position_eq (rest : list str) (i last_init_idx : nat) :
  scan_insert_position rest i last_init_idx =
  match find_index is_next_line rest with
  | Some k => i + k
  | None =>
      match last_index mentions_init rest with
      | Some k => i + k + 1
      | None => last_init_idx + 1
      end
  end.
Proof.
  revert i last_init_idx; induction rest as [|line rest IH];
    intros i last_init_idx;
    cbn [scan_insert_position find_index last_index]; [reflexivity|].
  assert (Hd : is_next_line line =
               negb (mentions_init line) && contains (lit "next(") line)
    by reflexivity.
  change (contains (lit "init(") line) with (mentions_init line).
  rewrite Hd.
  destruct (mentions_init line); cbn [negb andb].
  - rewrite IH. destruct (find_index is_next_line rest);
      cbn [option_map]; [lia|].
    destruct (last_index mentions_init rest); lia.
  - destruct (contains (lit "next(") line); [lia|].
    rewrite IH. destruct (find_index is_next_line rest);
      cbn [option_map]; [lia|].
    destruct (last_index mentions_init rest); lia.
Qed.


Lemma find_insert_position_after_init (lines : list str) (a : nat)
  (line : str) :
  nth_error lines (a + 1) = Some line -> mentions_init line = true ->
  a + 2 <= _find_insert_position_for_next_fault_mode lines a <= length lines.
Proof.
  intros Hline Hinit.
  unfold _find_insert_position_for_next_fault_mode.
  rewrite scan_insert_position_eq.
  assert (Hlen : a + 1 < length lines)
    by (apply nth_error_Some; congruence).
  assert (Hrest : length (skipn (a + 1) lines) = length lines - (a + 1))
    by apply length_skipn.
  assert (H0 : nth_error (skipn (a + 1) lines) 0 = Some line)
    by (rewrite nth_error_skipn, Nat.add_0_r; exact Hline).
  destruct (find_index is_next_line (skipn (a + 1) lines)) as [k|] eqn:Hn.
  - pose proof (find_index_lt _ _ Hn) as Hk.
    apply find_index_first in Hn as [[y [Hy Hpy]] _].
    destruct k as [|k]; [|lia].
    rewrite H0 in Hy. injection Hy as <-.
    unfold is_next_line in Hpy. rewrite Hinit in Hpy. discriminate.
  - destruct (last_index mentions_init (skipn (a + 1) lines)) as [k|]
      eqn:Hl.
    + apply last_index_lt in Hl. lia.
    + apply last_index_none with (x := line) in Hl; [congruence|].
      now apply nth_error_In with 0.
Qed.

(** ** The declarations of [inject_into_module] *)

Section Declarations.

Variable self : StuckAtInjector.
Variable module_text : str.

Let lines := splitlines module_text.
Let decl := fault_mode_decl self.
Let next_fault := _generate_next_fault_mode self.

Lemma find_section_insert (keyword : str) (i : nat) (x : str)
  (l : list str) :
  is_section keyword x = false ->
  _find_section_start (list_insert i x l) keyword =
  option_map (fun k => if k <? i then k else S k)
    (_find_section_start l keyword).
Proof.
  intros Hx. unfold _find_section_start.
  now apply (find_index_insert (fun line => startswith keyword (strip line))).
Qed.

Lemma inject_declarations_eq (v a0 : nat) :
  _find_section_start lines (lit "VAR") = Some v ->
  _find_section_start lines (lit "ASSIGN") = Some a0 ->
  let a := shifted_assign v a0 in
  let lines1 := list_insert (v + 1) decl lines in
  let lines2 := list_insert (a + 1) init_fault lines1 in
  let p := _find_insert_position_for_next_fault_mode lines2 a in
  inject_declarations self module_text = Ok (list_insert p next_fault lines2)
  /\ _find_section_start lines1 (lit "ASSIGN") = Some a
  /\ _find_section_start lines2 (lit "ASSIGN") = Some a
  /\ nth_error lines2 (a + 1) = Some init_fault
  /\ a + 2 <= p <= length lines2.
Proof.
  intros Hv Ha a lines1 lines2 p.
  assert (H1 : _find_section_start lines1 (lit "ASSIGN") = Some a).
  { unfold lines1. rewrite find_section_insert, Ha; [reflexivity|].
    now apply decl_not_section. }
  assert (Hlt : a < length lines1)
    by (apply (find_index_lt _ _ H1)).
  assert (H2 : _find_section_start lines2 (lit "ASSIGN") = Some a).
  { unfold lines2. rewrite find_section_insert, H1.
    - simpl. assert (Hlt' : (a <? a + 1) = true) by (apply Nat.ltb_lt; lia).
      now rewrite Hlt'.
    - now apply init_not_section. }
  assert (H3 : nth_error lines2 (a + 1) = Some init_fault)
    by (apply nth_error_insert_eq; lia).
  split; [|split; [|split; [|split]]]; try assumption.
  - unfold inject_declarations. fold lines. rewrite Hv.
    fold decl. fold lines1. rewrite H1. reflexivity.
  - now apply find_insert_position_after_init with init_fault.
Qed.

Lemma inject_declarations_no_var :
  _find_section_start lines (lit "VAR") = None ->
  inject_declarations self module_text = Raise NoVarSection.
Proof.
  intros Hv. unfold inject_declarations. fold lines. now rewrite Hv.
Qed.

Lemma inject_declarations_no_assign (v : nat) :
  _find_section_start lines (lit "VAR") = Some v ->
  _find_section_start lines (lit "ASSIGN") = None ->
  inject_declarations self module_text = Raise NoAssignSection.
Proof.
  intros Hv Ha. unfold inject_declarations. fold lines. rewrite Hv.
  rewrite find_section_insert, Ha; [reflexivity|].
  now apply decl_not_section.
Qed.

Lemma inject_declarations_cases :
  (inject_declarations self module_text = Raise NoVarSection /\
   _find_section_start lines (lit "VAR") = None) \/
  (inject_declarations self module_text = Raise NoAssignSection /\
   _find_section_start lines (lit "VAR") <> None /\
   _find_section_start lines (lit "ASSIGN") = None) \/
  (exists v a0 out,
      _find_section_start lines (lit "VAR") = Some v /\
      _find_section_start lines (lit "ASSIGN") = Some a0 /\
      inject_declarations self module_text = Ok out).
Proof.
  destruct (_find_section_start lines (lit "VAR")) as [v|] eqn:Hv.
  - destruct (_find_section_start lines (lit "ASSIGN")) as [a0|] eqn:Ha.
    + right. right. destruct (inject_declarations_eq Hv Ha) as [H _].
      eauto 6.
    + right. left. split; [now apply inject_declarations_no_assign with v|].
      split; [discriminate|reflexivity].
  - left. split; [now apply inject_declarations_no_var|reflexivity].
Qed.

End Declarations.

(** ** The enumeration of the fault modes *)

Lemma filter_twice {A} (p q : A -> bool) (l : list A) :
  filter p (filter q l) = filter (fun x => q x && p x) l.
Proof.
  induction l as [|x l IH]; simpl; [reflexivity|].
  destruct (q x); simpl; [|exact IH]. destruct (p x); now rewrite IH.
Qed.

Lemma filter_map_comm {A B} (f : A -> B) (p : B -> bool) (l : list A) :
  filter p (map f l) = map f (filter (fun x => p (f x)) l).
Proof.
  induction l as [|x l IH]; simpl; [reflexivity|].
  destruct (p (f x)); simpl; now rewrite IH.
Qed.

Lemma str_eqb_refl (a : str) : str_eqb a a = true.
Proof. now apply str_eqb_eq. Qed.

Lemma str_eqb_sym (a b : str) : str_eqb a b = str_eqb b a.
Proof.
  destruct (str_eqb a b) eqn:H.
  - apply str_eqb_eq in H as ->. now rewrite str_eqb_refl.
  - symmetry. apply not_true_iff_false. intros H'.
    apply str_eqb_eq in H' as ->. rewrite str_eqb_refl in H. discriminate.
Qed.

Lemma str_eqb_app (p a b : str) : str_eqb (p ++ a) (p ++ b) = str_eqb a b.
Proof.
  induction p as [|c p IH]; simpl; [reflexivity|].
  now rewrite Ascii.eqb_refl.
Qed.

Lemma dedup_fold (xs seen : list str) :
  fold_left dedup_step xs seen =
  seen ++ filter (fun x => negb (mem x seen)) (dedup_first xs).
Proof.
  revert seen; induction xs as [|x xs IH]; intros seen; simpl.
  - now rewrite app_nil_r.
  - rewrite IH. unfold dedup_step. rewrite filter_twice.
    destruct (mem x seen) eqn:Hx; simpl.
    + f_equal. apply filter_ext. intros y.
      destruct (mem y seen) eqn:Hy; simpl; [now rewrite andb_false_r|].
      rewrite andb_true_r.
      destruct (str_eqb y x) eqn:Hyx; [|reflexivity].
      apply str_eqb_eq in Hyx as ->. congruence.
    + rewrite <- app_assoc. simpl. do 2 f_equal. apply filter_ext.
      intros y. unfold mem. rewrite existsb_app. simpl.
      rewrite orb_false_r, negb_orb. fold (mem y seen).
      now rewrite andb_comm.
Qed.

Lemma dedup_first_map_app (p : str) (xs : list str) :
  dedup_first (map (app p) xs) = map (app p) (dedup_first xs).
Proof.
  induction xs as [|x xs IH]; simpl; [reflexivity|].
  rewrite IH, filter_map_comm. do 2 f_equal.
  apply filter_ext. intros y. now rewrite str_eqb_app.
Qed.

Lemma fault_modes_fold (fs : list Fault) (seen : list str) :
  fold_left
    (fun modes fault =>
       if mem (mode_name fault) modes then modes
       else modes ++ [mode_name fault]) fs seen =
  fold_left dedup_step (map mode_name fs) seen.
Proof.
  revert seen; induction fs as [|f fs IH]; intros seen; simpl;
    [reflexivity|apply IH].
Qed.

Lemma fault_modes_enumeration (self : StuckAtInjector) :
  fault_modes self = fault_mode_enumeration (self_faults self).
Proof.
  unfold fault_modes, fault_mode_enumeration.
  rewrite fault_modes_fold, dedup_fold.
  change (map mode_name (self_faults self))
    with (map (fun f => lit "stuck_" ++ value f) (self_faults self)).
  rewrite <- (map_map value (app (lit "stuck_"))), dedup_first_map_app.
  rewrite filter_map_comm. simpl. do 2 f_equal.
  induction (dedup_first (map value (self_faults self))) as [|x l IH];
    simpl; [reflexivity|now rewrite IH].
Qed.

(** C2, as the code has it.  For a module text whose lines hold a [VAR]
    header (the first at index [v]) and an [ASSIGN] header (the first at
    index [a0]), the declaration stage succeeds, and its lines are the
    lines of the input with three lines added and nothing else changed:
    one declaration of [fault_mode] over the enumeration [none],
    [stuck_<value>] for the distinct values in the order of first
    occurrence; one [init(fault_mode) := none;] directly after the
    [ASSIGN] header; one two-branch [next(fault_mode)] over the same
    enumeration, further down.  When the [VAR] header comes before the
    [ASSIGN] header, the declaration is directly after the [VAR] header. *)
Theorem inject_declarations_lines (self : StuckAtInjector)
  (module_text : str) (v a0 : nat) :
  let lines := splitlines module_text in
  let enum :=
    join_with (lit ", ") (fault_mode_enumeration (self_faults self)) in
  let decl := lit "    fault_mode : {" ++ enum ++ lit "};" ++ nl in
  let next_fault :=
    lit "    next(fault_mode) :=" ++ nl ++
    lit "        case" ++ nl ++
    lit "            fault_mode = none :" ++ nl ++
    lit "                {" ++ enum ++ lit "};" ++ nl ++
    lit "            TRUE :" ++ nl ++
    lit "                fault_mode;" ++ nl ++
    lit "        esac;" ++ nl in
  _find_section_start lines (lit "VAR") = Some v ->
  _find_section_start lines (lit "ASSIGN") = Some a0 ->
  exists out a p,
    inject_declarations self module_text = Ok out /\
    out = list_insert p next_fault
            (list_insert (a + 1) init_fault
               (list_insert (v + 1) decl lines)) /\
    Permutation out (decl :: init_fault :: next_fault :: lines) /\
    _find_section_start out (lit "ASSIGN") = Some a /\
    nth_error out (a + 1) = Some init_fault /\
    a + 2 <= p /\ nth_error out p = Some next_fault /\
    (v < a0 ->
     _find_section_start out (lit "VAR") = Some v /\
     nth_error out (v + 1) = Some decl).
Proof.
  intros lines enum decl next_fault Hv Ha.
  assert (Hdecl : decl = fault_mode_decl self).
  { unfold decl, enum, fault_mode_decl, get_fault_mode_enum.
    now rewrite fault_modes_enumeration. }
  assert (Hnext : next_fault = _generate_next_fault_mode self).
  { unfold next_fault, enum, _generate_next_fault_mode, get_fault_mode_enum.
    now rewrite fault_modes_enumeration. }
  rewrite Hdecl, Hnext.
  destruct (inject_declarations_eq self module_text Hv Ha)
    as [Hout [H1 [H2 [H3 Hp]]]].
  set (a := shifted_assign v a0) in *.
  set (lines1 := list_insert (v + 1) (fault_mode_decl self)
                   (splitlines module_text)) in *.
  set (lines2 := list_insert (a + 1) init_fault lines1) in *.
  set (p := _find_insert_position_for_next_fault_mode lines2 a) in *.
  exists (list_insert p (_generate_next_fault_mode self) lines2), a, p.
  assert (Hvlt : v < length lines) by apply (find_index_lt _ _ Hv).
  assert (Halt : a < length lines1) by apply (find_index_lt _ _ H1).
  assert (Hlen1 : length lines1 = S (length lines))
    by apply list_insert_length.
  split; [exact Hout|]. split; [reflexivity|].
  split.
  { eapply perm_trans; [apply list_insert_perm|].
    eapply perm_trans; [apply perm_skip, list_insert_perm|].
    eapply perm_trans;
      [apply perm_skip, perm_skip, list_insert_perm|].
    fold lines.
    eapply perm_trans; [apply perm_swap|].
    eapply perm_trans; [apply perm_skip, perm_swap|].
    apply perm_swap. }
  split.
  { rewrite find_section_insert, H2.
    - simpl. assert (Hlt : (a <? p) = true) by (apply Nat.ltb_lt; lia).
      now rewrite Hlt.
    - now apply next_not_section. }
  split; [rewrite nth_error_insert_lt; [exact H3|lia|lia]|].
  split; [lia|].
  split; [apply nth_error_insert_eq; lia|].
  intros Hva.
  assert (Ha' : a = S a0).
  { unfold a, shifted_assign.
    assert (Hf : (a0 <? v + 1) = false) by (apply Nat.ltb_ge; lia).
    now rewrite Hf. }
  split.
  - unfold lines2, lines1, lines in *.
    rewrite !find_section_insert, Hv.
    + simpl.
      assert (Hl1 : (v <? v + 1) = true) by (apply Nat.ltb_lt; lia).
      rewrite Hl1.
      assert (Hl2 : (v <? a + 1) = true) by (apply Nat.ltb_lt; lia).
      rewrite Hl2.
      assert (Hl3 : (v <? p) = true) by (apply Nat.ltb_lt; lia).
      now rewrite Hl3.
    + now apply decl_not_section.
    + now apply init_not_section.
    + now apply next_not_section.
  - rewrite nth_error_insert_lt; [|lia|lia].
    unfold lines2. rewrite nth_error_insert_lt; [|lia|lia].
    apply nth_error_insert_eq. fold lines. lia.
Qed.


(** ** Failures of the module rewrite *)

Lemma inject_groups_app (t : str) (g1 g2 : list (str * list Fault)) :
  inject_groups t (g1 ++ g2) =
  (t' <- inject_groups t g1 ;; inject_groups t' g2).
Proof.
  revert t; induction g1 as [|[v fs] g1 IH]; intros t; simpl;
    [reflexivity|].
  destruct (_inject_into_next_assignment t v fs) as [t'|e]; simpl;
    [apply IH|reflexivity].
Qed.

Lemma inject_into_next_assignment_missing (t v : str) (fs : list Fault) :
  search_case_block v t = None ->
  _inject_into_next_assignment t v fs = Raise (NextAssignmentNotFound v).
Proof.
  intros H. unfold _inject_into_next_assignment. now rewrite H.
Qed.

Lemma inject_into_next_assignment_raises (t v : str) (fs : list Fault)
  (e : exn) :
  _inject_into_next_assignment t v fs = Raise e ->
  search_case_block v t = None /\ e = NextAssignmentNotFound v.
Proof.
  unfold _inject_into_next_assignment.
  destruct (search_case_block v t); [discriminate|].
  intros [= <-]. auto.
Qed.

Lemma inject_groups_raises (t0 : str) (groups : list (str * list Fault))
  (e : exn) :
  inject_groups t0 groups = Raise e <->
  exists v, e = NextAssignmentNotFound v /\ stops_at t0 groups v.
Proof.
  split.
  - revert t0; induction groups as [|[v fs] g IH]; intros t0; simpl;
      [discriminate|].
    destruct (_inject_into_next_assignment t0 v fs) as [t'|e'] eqn:Hstep;
      simpl.
    + intros H. destruct (IH _ H) as [w [-> [done [fs' [rest [t [Hg [Hd Hs]]]]]]]].
      exists w. split; [reflexivity|].
      exists ((v, fs) :: done), fs', rest, t. simpl.
      rewrite Hstep. simpl. now rewrite Hg.
    + intros [= <-].
      apply inject_into_next_assignment_raises in Hstep as [Hs ->].
      exists v. split; [reflexivity|]. now exists [], fs, g, t0.
  - intros [v [-> [done [fs [rest [t [-> [Hd Hs]]]]]]]].
    rewrite inject_groups_app, Hd. simpl.
    now rewrite inject_into_next_assignment_missing.
Qed.

(** ** The rewriter takes the variables in turn *)

Lemma partition_at_here (p b : str) :
  partition_at p (p ++ b) = Some ([], b).
Proof.
  destruct (p ++ b) eqn:Hs; simpl; rewrite <- Hs, strip_prefix_same;
    reflexivity.
Qed.

Lemma partition_at_found (p a b : str) :
  exists x, partition_at p (a ++ p ++ b) = Some x.
Proof.
  induction a as [|c a IH].
  - change ([] ++ p ++ b) with (p ++ b). rewrite partition_at_here. eauto.
  - change ((c :: a) ++ p ++ b) with (c :: a ++ p ++ b).
    cbn [partition_at].
    destruct (strip_prefix p (c :: a ++ p ++ b)) as [r|]; [eauto|].
    destruct IH as [[x y] ->]. eauto.
Qed.

Lemma partition_at_first (p s a b : str) :
  partition_at p s = Some (a, b) ->
  forall a' b', s = a' ++ p ++ b' -> length a <= length a'.
Proof.
  revert a b; induction s as [|c s IH]; intros a b; cbn [partition_at].
  - destruct (strip_prefix p []); [|discriminate].
    intros [= <- <-] a' b' _. apply Nat.le_0_l.
  - destruct (strip_prefix p (c :: s)) as [r|] eqn:Hp.
    + intros [= <- <-] a' b' _. apply Nat.le_0_l.
    + destruct (partition_at p s) as [[a1 b1]|]; [|discriminate].
      intros [= <- <-] a' b' Hs.
      destruct a' as [|c' a'].
      * simpl in Hs. rewrite Hs, strip_prefix_same in Hp. discriminate.
      * injection Hs as _ Hs. simpl. apply le_n_S.
        exact (IH _ _ eq_refl _ _ Hs).
Qed.

Lemma match_next_header_complete (v ws1 ws2 r : str) :
  forallb is_space ws1 = true -> forallb is_space ws2 = true ->
  match_next_header v
    ((lit "next(" ++ v ++ lit ")") ++ ws1 ++ lit ":=" ++ ws2 ++ lit "case" ++ r)
  = Some ((lit "next(" ++ v ++ lit ")") ++ ws1 ++ lit ":=" ++ ws2 ++
          lit "case", r).
Proof.
  intros H1 H2. unfold match_next_header.
  rewrite strip_prefix_same.
  change (ws1 ++ lit ":=" ++ ws2 ++ lit "case" ++ r)
    with (ws1 ++ ":"%char :: (lit "=" ++ ws2 ++ lit "case" ++ r)).
  rewrite (@span_stop is_space ws1 ":"%char _ H1 eq_refl).
  change (":"%char :: (lit "=" ++ ws2 ++ lit "case" ++ r))
    with (lit ":=" ++ ws2 ++ lit "case" ++ r).
  rewrite strip_prefix_same.
  change (ws2 ++ lit "case" ++ r) with (ws2 ++ "c"%char :: (lit "ase" ++ r)).
  rewrite (@span_stop is_space ws2 "c"%char _ H2 eq_refl).
  change ("c"%char :: (lit "ase" ++ r)) with (lit "case" ++ r).
  now rewrite strip_prefix_same.
Qed.

Lemma match_case_block_at_complete (v b : str) :
  starts_with_block v b -> exists m, match_case_block_at v b = Some m.
Proof.
  intros [ws1 [ws2 [body [rest [H1 [H2 ->]]]]]].
  unfold match_case_block_at.
  replace (lit "next(" ++ v ++ lit ")" ++ ws1 ++ lit ":=" ++ ws2 ++
           lit "case" ++ body ++ lit "esac;" ++ rest)
    with ((lit "next(" ++ v ++ lit ")") ++ ws1 ++ lit ":=" ++ ws2 ++
          lit "case" ++ body ++ lit "esac;" ++ rest)
    by now rewrite <- !app_assoc.
  rewrite (@match_next_header_complete v ws1 ws2 _ H1 H2).
  destruct (partition_at_found (lit "esac;") body rest) as [[g2 r] ->].
  eauto.
Qed.

Lemma match_case_block_at_sound (v b : str) (m : case_match) :
  match_case_block_at v b = Some m -> starts_with_block v b.
Proof.
  intros H. destruct (match_case_block_at_shape _ _ H)
    as [Hs [_ [H3 [ws1 [ws2 [Hg [H1 H2]]]]]]].
  exists ws1, ws2, (group2 m), (after m).
  split; [exact H1|]. split; [exact H2|].
  rewrite Hs, Hg, H3. now rewrite <- !app_assoc.
Qed.

Lemma search_case_block_complete (v t : str) :
  has_block v t -> exists m, search_case_block v t = Some m.
Proof.
  intros [a [b [-> Hb]]]. induction a as [|c a IH].
  - destruct (match_case_block_at_complete Hb) as [m Hm].
    change ([] ++ b) with b.
    destruct b; cbn [search_case_block]; rewrite Hm; eauto.
  - change ((c :: a) ++ b) with (c :: a ++ b). cbn [search_case_block].
    destruct (match_case_block_at v (c :: a ++ b)); [eauto|].
    destruct IH as [m ->]. eauto.
Qed.

Lemma match_case_block_at_shortest (v s : str) (m : case_match) :
  match_case_block_at v s = Some m ->
  forall a b,
    group2 m ++ lit "esac;" ++ after m = a ++ lit "esac;" ++ b ->
    length (group2 m) <= length a.
Proof.
  unfold match_case_block_at.
  destruct (match_next_header v s) as [[g1 r]|]; [|discriminate].
  destruct (partition_at (lit "esac;") r) as [[g2 rest]|] eqn:Hp;
    [|discriminate].
  intros [= <-] a b Hab. cbn [group2 after] in *.
  apply (@partition_at_first (lit "esac;") r g2 rest Hp a b).
  now rewrite (partition_at_app _ _ Hp).
Qed.

Lemma search_first_block (v t : str) (m : case_match) :
  search_case_block v t = Some m -> first_block v t m.
Proof.
  intros Hm. destruct (search_case_block_shape _ _ Hm) as [Ht [H3 Hg]].
  split; [now rewrite <- H3|]. split; [exact Hg|].
  clear Ht H3 Hg. revert m Hm. induction t as [|c t IH]; intros m.
  - simpl. discriminate.
  - cbn [search_case_block].
    destruct (match_case_block_at v (c :: t)) as [m0|] eqn:H0.
    + intros [= <-]. split.
      * exact (match_case_block_at_shortest _ _ H0).
      * intros a b _ Hlt.
        destruct (match_case_block_at_shape _ _ H0) as [_ [Hb _]].
        rewrite Hb in Hlt. inversion Hlt.
    + destruct (search_case_block v t) as [m1|]; [|discriminate].
      intros [= <-]. cbn [group2 after before].
      destruct (IH _ eq_refl) as [Hshort Hleft]. split; [exact Hshort|].
      intros a b Hab Hlt Hblock. destruct a as [|c' a].
      * simpl in Hab. subst b.
        destruct (match_case_block_at_complete Hblock) as [m' Hm'].
        congruence.
      * injection Hab as _ Hab. simpl in Hlt.
        apply (Hleft a b Hab); [now apply Nat.succ_lt_mono|exact Hblock].
Qed.

Lemma inject_groups_in_turn (groups : list (str * list Fault))
  (t out : str) :
  inject_groups t groups = Ok out -> rewritten_in_turn t groups out.
Proof.
  revert t; induction groups as [|[v fs] g IH]; intros t; simpl.
  - intros [= <-]. constructor.
  - destruct (search_case_block v t) as [m|] eqn:Hm.
    + rewrite (@inject_into_next_assignment_found t v fs m Hm). simpl.
      intros H. apply in_turn_step with m.
      * now apply search_first_block.
      * now apply IH.
    + rewrite inject_into_next_assignment_missing by exact Hm. discriminate.
Qed.

Lemma group_keys_fold (l : list Fault) (g0 : list (str * list Fault)) :
  map fst
    (fold_left (fun groups fault => group_add (variable fault) fault groups)
       l g0) =
  fold_left dedup_step (map variable l) (map fst g0).
Proof.
  revert g0; induction l as [|f l IH]; intros g0; simpl; [reflexivity|].
  rewrite IH, group_add_keys. reflexivity.
Qed.

(** C1, as the code has it.  The rewriter takes the affected variables in
    the order of their first fault, each with its faults in the order of
    the fault list.  When it returns, the text it returns comes from the
    module text by these turns, each turn rebuilding the first block
    [next(v) := case ... esac;] of the text left by the turns before it.
    At the turn of a variable [v], when that text holds a block of [v],
    the loop goes on with the text in which the first such block is
    rebuilt: the header up to [case], a line feed, one branch
    [fault_mode = stuck_<value> : <value>;] per fault on [v] in order,
    then the original branches as they were, then [esac;]; the text before
    and after the block is kept. *)
Theorem inject_fault_conditions_in_turn (self : StuckAtInjector)
  (module_text : str) :
  let groups := faults_by_var self in
  map fst groups = dedup_first (map variable (self_faults self)) /\
  (forall v fs, In (v, fs) groups ->
                fs = filter (has_variable v) (self_faults self) /\
                fs <> []) /\
  (forall out, _inject_fault_conditions self module_text = Ok out ->
               rewritten_in_turn module_text groups out) /\
  (forall done v fs rest t,
      groups = done ++ (v, fs) :: rest ->
      inject_groups module_text done = Ok t ->
      has_block v t ->
      exists m,
        first_block v t m /\
        inject_groups module_text (done ++ [(v, fs)]) =
          Ok (with_fault_branches m fs) /\
        _inject_fault_conditions self module_text =
          inject_groups (with_fault_branches m fs) rest) /\
  (forall f,
      fault_case f =
      lit "        fault_mode = stuck_" ++ value f ++ lit " : " ++ value f ++
      lit ";" ++ nl).
Proof.
  intros groups. split; [|split; [|split; [|split]]].
  - unfold groups, faults_by_var. rewrite group_keys_fold, dedup_fold.
    simpl. induction (dedup_first (map variable (self_faults self)))
      as [|x l IH]; simpl; [reflexivity|now rewrite IH].
  - apply (faults_by_var_grouped self).
  - intros out. apply inject_groups_in_turn.
  - intros done v fs rest t Hg Hd Hb.
    destruct (search_case_block_complete Hb) as [m Hm].
    exists m. split; [now apply search_first_block|].
    assert (Hstep : _inject_into_next_assignment t v fs =
                    Ok (with_fault_branches m fs))
      by now apply inject_into_next_assignment_found.
    split.
    + rewrite inject_groups_app, Hd. simpl. now rewrite Hstep.
    + unfold _inject_fault_conditions. fold groups.
      rewrite Hg, inject_groups_app, Hd. simpl. now rewrite Hstep.
  - intros f. unfold fault_case, mode_name. now app_norm.
Qed.

(** C6, as the code has it.  The module rewrite raises when the lines of
    the module text hold no [VAR] header; when they hold one and no
    [ASSIGN] header; and when, the declarations being in, the rewriter
    comes to an affected variable for which the text it has then (the
    module text with the [fault_mode] lines in and the earlier variables
    rewritten) holds no block [next(<variable>) := case ... esac;].  It
    raises in no other case. *)
Theorem inject_into_module_raises (self : StuckAtInjector)
  (module_text : str) :
  let lines := splitlines module_text in
  (_find_section_start lines (lit "VAR") = None ->
   inject_into_module self module_text = Raise NoVarSection) /\
  (_find_section_start lines (lit "VAR") <> None ->
   _find_section_start lines (lit "ASSIGN") = None ->
   inject_into_module self module_text = Raise NoAssignSection) /\
  (forall declared v,
      inject_declarations self module_text = Ok declared ->
      stops_at (join declared) (faults_by_var self) v ->
      inject_into_module self module_text =
      Raise (NextAssignmentNotFound v)) /\
  (forall e,
      inject_into_module self module_text = Raise e ->
      (e = NoVarSection /\ _find_section_start lines (lit "VAR") = None) \/
      (e = NoAssignSection /\
       _find_section_start lines (lit "ASSIGN") = None) \/
      (exists declared v,
          e = NextAssignmentNotFound v /\
          inject_declarations self module_text = Ok declared /\
          stops_at (join declared) (faults_by_var self) v)).
Proof.
  intros lines. unfold inject_into_module, _inject_fault_conditions.
  split; [|split; [|split]].
  - intros Hv. now rewrite inject_declarations_no_var.
  - intros Hv Ha.
    destruct (_find_section_start lines (lit "VAR")) as [v|] eqn:Hv';
      [|congruence].
    now rewrite (inject_declarations_no_assign self module_text Hv' Ha).
  - intros declared v Hd Hstop. rewrite Hd. simpl.
    apply inject_groups_raises. now exists v.
  - intros e.
    destruct (inject_declarations_cases self module_text)
      as [[H Hv]|[[H [Hv Ha]]|[v [a0 [out [Hv [Ha H]]]]]]];
      rewrite H; simpl.
    + intros [= <-]. now left.
    + intros [= <-]. right. now left.
    + intros Hr. apply inject_groups_raises in Hr as [w [-> Hstop]].
      right. right. now exists out, w.
Qed.

(** ** The guard on the toggle *)

Lemma protect_toggle_absent (module_text : str) :
  search_case_block toggle module_text = None ->
  protect_toggle_logic module_text = module_text.
Proof.
  intros H. unfold protect_toggle_logic. now rewrite H.
Qed.

(** C4, the code at the failing input.  The first branch tests the negated
    toggle in its condition and sets the toggle to [TRUE]: it does not flip
    the toggle, and it gets the guard all the same, as the test is made on
    the whole line.  In the second text the flipping branch has its action
    on a line of its own, without a colon, and gets no guard. *)
Theorem protect_toggle_guards_by_line :
  protect_toggle_logic toggle_module = lit "MODULE Client
VAR
  request_toggle : boolean;
ASSIGN
  next(request_toggle) := case
        fault_mode = none &
        !request_toggle & start : TRUE;
        fault_mode = none &
        state = receiving & !queue.empty : !request_toggle;
    TRUE : request_toggle;
  
    esac;
" /\
  protect_toggle_logic toggle_two_lines = lit "MODULE Client
ASSIGN
  next(request_toggle) := case
    state = receiving :
      !request_toggle;
    TRUE : request_toggle;
  
    esac;
".
Proof.
  split; vm_compute; reflexivity.
Qed.

(** ** The claims at sample inputs *)

(** The sample module rewritten as a whole. *)
Example sensor_module_rewritten :
  inject_into_module sensor_injector sensor_module = Ok (lit "MODULE Sensor
VAR
    fault_mode : {none, stuck_0};
  reading : 0..3;
ASSIGN
    init(fault_mode) := none;

  init(reading) := 0;
    next(fault_mode) :=
        case
            fault_mode = none :
                {none, stuck_0};
            TRUE :
                fault_mode;
        esac;
  next(reading) := case
        fault_mode = stuck_0 : 0;
 TRUE: reading+1;     esac;
").
Proof. vm_compute. reflexivity. Qed.

Lemma find_module_range_witness :
  exists e, find_module sensor2_model (lit "Sens") = Ok (0, e).
Proof.
  apply (proj1 (proj2 (proj2 (proj2
           (find_module_range sensor2_model (lit "Sens")))))
           0 (lit "MODULE Sensor
") (lit "or")); [reflexivity|reflexivity|].
  intros j l Hj. inversion Hj.
Defined.

Lemma inject_fault_conditions_in_turn_witness :
  faults_by_var both_injector =
    [(lit "x", [mkFault stuck_at (lit "x") (lit "TRUE");
                mkFault stuck_at (lit "x") (lit "FALSE")]);
     (lit "y", [mkFault stuck_at (lit "y") (lit "FALSE")])] /\
  rewritten_in_turn pair_module (faults_by_var both_injector)
    (lit "MODULE Pair
VAR
  x : boolean;
  y : boolean;
ASSIGN
  init(x) := TRUE;
  next(x) := case
        fault_mode = stuck_TRUE : TRUE;
        fault_mode = stuck_FALSE : FALSE;
 TRUE : !x;     esac;
  init(y) := FALSE;
  next(y) := case
        fault_mode = stuck_FALSE : FALSE;
 TRUE : x;     esac;
").
Proof.
  split; [reflexivity|].
  apply (proj1 (proj2 (proj2
           (inject_fault_conditions_in_turn both_injector pair_module)))).
  vm_compute. reflexivity.
Defined.

(** C1, the claim as written fails.  The module text holds a block of [y],
    and [y] has a fault; the rewriter returns, and in the text it returns
    that block is as it was.  The fault on [x], taken first, has a value
    of the form of a block of [y]; its branch stands in the rebuilt block
    of [x], above the block of [y], and the branch of the fault on [y]
    goes into it. *)
Lemma inject_fault_conditions_masked_block :
  faults_by_var masked_injector =
    [(lit "x", [mkFault stuck_at (lit "x") (lit "next(y) := case 1; esac;")]);
     (lit "y", [mkFault stuck_at (lit "y") (lit "0")])] /\
  has_block (lit "y") masked_module /\
  search_case_block (lit "y") masked_module =
    Some (mkCaseMatch
            (lit "MODULE Pair
VAR
  x : boolean;
  y : boolean;
ASSIGN
  next(x) := case TRUE : x; esac;
  ")
            (lit "next(y) := case") (lit " TRUE : y; ") (lit "esac;") nl) /\
  _inject_fault_conditions masked_injector masked_module =
  Ok (lit "MODULE Pair
VAR
  x : boolean;
  y : boolean;
ASSIGN
  next(x) := case
        fault_mode = stuck_next(y) := case
        fault_mode = stuck_0 : 0;
 1;     esac; : next(y) := case 1; esac;;
 TRUE : x;     esac;
  next(y) := case TRUE : y; esac;
").
Proof.
  split; [reflexivity|]. split; [|split; vm_compute; reflexivity].
  exists (lit "MODULE Pair
VAR
  x : boolean;
  y : boolean;
ASSIGN
  next(x) := case TRUE : x; esac;
  "), (lit "next(y) := case TRUE : y; esac;
").
  split; [reflexivity|].
  exists (lit " "), (lit " "), (lit " TRUE : y; "), nl.
  split; [reflexivity|]. split; reflexivity.
Qed.

(** C2, the claim as written fails.  On a module text that already holds
    the declaration, the lines of the output hold it twice; on a module
    text with the assignments first and a fault value that holds [next(],
    the line after the [VAR] header is the assignment [next(fault_mode)],
    and the declaration comes after it. *)
Lemma inject_declarations_not_exactly_one :
  (exists out,
      inject_declarations sensor_injector declared_module = Ok out /\
      nth_error out 2 = Some (fault_mode_decl sensor_injector) /\
      nth_error out 3 = Some (fault_mode_decl sensor_injector)) /\
  (exists out,
      inject_declarations next_valued_injector assign_first_module = Ok out /\
      _find_section_start out (lit "VAR") = Some 4 /\
      nth_error out 5 = Some (_generate_next_fault_mode next_valued_injector)
      /\ nth_error out 6 = Some (fault_mode_decl next_valued_injector)).
Proof.
  split; eexists; (split; [vm_compute; reflexivity|]);
    repeat split; reflexivity.
Qed.

Lemma inject_declarations_lines_witness :
  _find_section_start (splitlines sensor_module) (lit "VAR") = Some 1 /\
  _find_section_start (splitlines sensor_module) (lit "ASSIGN") = Some 3 /\
  exists out a p,
    inject_declarations sensor_injector sensor_module = Ok out /\
    _find_section_start out (lit "ASSIGN") = Some a /\
    nth_error out (a + 1) = Some init_fault /\
    a + 2 <= p /\
    nth_error out p = Some (_generate_next_fault_mode sensor_injector) /\
    (1 < 3 ->
     _find_section_start out (lit "VAR") = Some 1 /\
     nth_error out (1 + 1) = Some (fault_mode_decl sensor_injector)).
Proof.
  assert (Hv : _find_section_start (splitlines sensor_module) (lit "VAR") =
               Some 1) by reflexivity.
  assert (Ha : _find_section_start (splitlines sensor_module)
                 (lit "ASSIGN") = Some 3) by reflexivity.
  split; [exact Hv|]. split; [exact Ha|].
  destruct (inject_declarations_lines sensor_injector sensor_module Hv Ha)
    as [out [a [p [H1 [_ [_ [H2 [H3 [H4 [H5 H6]]]]]]]]]].
  exists out, a, p. repeat split; try assumption; now apply H6.
Defined.



(** C6, the claim as written fails.  The module text holds no block
    [next(fault_mode) := case ... esac;], the variable [fault_mode] is
    affected by a fault, and the rewrite returns a text: the search finds
    the block that the declaration stage has just inserted. *)
Lemma inject_into_module_finds_inserted_block :
  search_case_block (lit "fault_mode") plain_module = None /\
  inject_into_module fault_mode_injector plain_module = Ok (lit "MODULE Sensor
VAR
    fault_mode : {none, stuck_0};
  reading : 0..3;
ASSIGN
    init(fault_mode) := none;

  init(reading) := 0;
    next(fault_mode) :=
        case
        fault_mode = stuck_0 : 0;

            fault_mode = none :
                {none, stuck_0};
            TRUE :
                fault_mode;
            esac;
").
Proof.
  split; vm_compute; reflexivity.
Qed.

Lemma inject_into_module_raises_witness :
  _find_section_start (splitlines (lit "MODULE Empty")) (lit "VAR") = None /\
  inject_into_module sensor_injector (lit "MODULE Empty") =
  Raise NoVarSection /\
  inject_into_module sensor_injector plain_module =
  Raise (NextAssignmentNotFound (lit "reading")).
Proof.
  assert (Hv : _find_section_start (splitlines (lit "MODULE Empty"))
                 (lit "VAR") = None) by reflexivity.
  split; [exact Hv|]. split.
  - exact (proj1 (inject_into_module_raises sensor_injector
                    (lit "MODULE Empty")) Hv).
  - destruct (inject_declarations sensor_injector plain_module)
      as [declared|e] eqn:Hd; [|vm_compute in Hd; discriminate Hd].
    apply (proj1 (proj2 (proj2
             (inject_into_module_raises sensor_injector plain_module)))
             declared (lit "reading") Hd).
    exists [], [sensor_fault], [], (join declared).
    repeat split. vm_compute in Hd. injection Hd as <-. reflexivity.
Defined.

Lemma replicate_soft_failures_witness :
  (2 <= redundancy (fault_model sensor_engine))%Z /\
  replicate_for_redundancy sensor_engine sensor_module =
  (sensor_module, [warning_no_wrapper]).
Proof.
  assert (HN : (2 <= redundancy (fault_model sensor_engine))%Z)
    by (simpl; lia).
  split; [exact HN|].
  apply (proj1 (replicate_soft_failures sensor_engine sensor_module HN)).
  eexists. reflexivity.
Defined.

Lemma replicate_single_instance_witness :
  find_module sensor_model (lit "NominalR") = Ok (6, 9) /\
  match_instance sensor_instance =
  Some (lit "  ", lit "s1", lit "Sensor", lit "a, b") /\
  replicate_for_redundancy sensor_engine sensor_model =
  (sensor_module ++ join wrapper_lines ++ lit "  s1_1 : process Sensor(a, b);
  s1_2 : process Sensor(a, b);
  s1_3 : process Sensor(a, b);
", []).
Proof.
  assert (HN : (2 <= redundancy (fault_model sensor_engine))%Z)
    by (simpl; lia).
  assert (Hf : find_module sensor_model (lit "NominalR") = Ok (6, 9))
    by reflexivity.
  assert (Hm : match_instance sensor_instance =
               Some (lit "  ", lit "s1", lit "Sensor", lit "a, b"))
    by reflexivity.
  split; [exact Hf|]. split; [exact Hm|].
  assert (Hother : forall l, In l wrapper_lines \/ In l [] ->
             contains (instance_needle (fault_model sensor_engine)) l =
             false).
  { intros l [[<-|[<-|[]]]|[]]; reflexivity. }
  destruct (proj2 (replicate_single_instance sensor_engine sensor_model)
              6 9 wrapper_lines sensor_instance [] _ _ _ _ HN Hf eq_refl
              Hother eq_refl Hm) as [H _].
  rewrite H. reflexivity.
Defined.

Lemma replicate_expands_every_match_witness :
  find_module sensor2_model (lit "NominalR") = Ok (6, 9) /\
  replicate_for_redundancy sensor_engine sensor2_model =
  (sensor_module ++ join wrapper_lines ++ lit "  s2_1 : process Sensor2(c);
  s2_2 : process Sensor2(c);
  s2_3 : process Sensor2(c);
", []).
Proof.
  assert (HN : (2 <= redundancy (fault_model sensor_engine))%Z)
    by (simpl; lia).
  assert (Hf : find_module sensor2_model (lit "NominalR") = Ok (6, 9))
    by reflexivity.
  split; [exact Hf|].
  rewrite (proj1 (replicate_expands_every_match sensor_engine sensor2_model
                    HN Hf) eq_refl).
  reflexivity.
Defined.

(** * Further properties of the code *)

(** ** The span of a module *)

Lemma find_index_firstn {A} (p : A -> bool) (l : list A) (k : nat) :
  find_index p l = Some k -> forall x, In x (firstn k l) -> p x = false.
Proof.
  intros H x Hx. apply find_index_first in H as [_ Hlt].
  apply In_nth_error in Hx as [j Hj].
  assert (Hjk : j < k).
  { assert (Hlen : j < length (firstn k l))
      by (apply nth_error_Some; congruence).
    rewrite length_firstn in Hlen. lia. }
  rewrite nth_error_firstn in Hj.
  assert (Hb : (j <? k) = true) by now apply Nat.ltb_lt.
  rewrite Hb in Hj. now apply (Hlt j).
Qed.

Lemma slice_partition {A} (l : list A) (s e : nat) :
  s <= e -> firstn s l ++ slice s e l ++ skipn e l = l.
Proof.
  intros Hse. unfold slice.
  replace (skipn e l) with (skipn (e - s) (skipn s l))
    by (rewrite skipn_skipn; f_equal; lia).
  now rewrite !firstn_skipn.
Qed.

Lemma join_partition (content : str) (s e : nat) :
  s <= e ->
  join (firstn s (splitlines content)) ++
  join (slice s e (splitlines content)) ++
  join (skipn e (splitlines content)) = content.
Proof.
  intros Hse. unfold join. rewrite <- !concat_app, slice_partition by exact Hse.
  apply splitlines_join.
Qed.

Lemma find_module_bounds (content name : str) (s e : nat) :
  find_module content name = Ok (s, e) ->
  s < e <= length (splitlines content) /\
  find_index (is_module_header name) (splitlines content) = Some s /\
  (find_index is_any_module_header (skipn (s + 1) (splitlines content)) =
     Some (e - (s + 1)) \/
   (find_index is_any_module_header (skipn (s + 1) (splitlines content)) =
      None /\ e = length (splitlines content))).
Proof.
  unfold find_module.
  destruct (find_index (is_module_header name) (splitlines content))
    as [st|] eqn:Hst; [|discriminate].
  destruct (find_index is_any_module_header
              (skipn (st + 1) (splitlines content))) as [k|] eqn:Hk;
    intros [= <- <-].
  - pose proof (find_index_lt _ _ Hk) as Hlt. rewrite length_skipn in Hlt.
    split; [lia|]. split; [reflexivity|]. left.
    now replace (st + 1 + k - (st + 1)) with k by lia.
  - apply find_index_lt in Hst as Hlt.
    split; [lia|]. split; [reflexivity|]. now right.
Qed.

(** The lines of a located module are its header line, then lines that are
    no module header; and the lines before the module, the lines of the
    module and the lines after it, joined in this order, are the model
    text. *)
Theorem find_module_span (content name : str) (s e : nat) :
  find_module content name = Ok (s, e) ->
  let lines := splitlines content in
  join (firstn s lines) ++ join (slice s e lines) ++ join (skipn e lines) =
  content /\
  exists header body,
    slice s e lines = header :: body /\
    is_module_header name header = true /\
    forall l, In l body -> is_any_module_header l = false.
Proof.
  intros Hfind lines.
  destruct (find_module_bounds _ _ Hfind) as [Hse [Hs He]].
  fold lines in Hse, Hs, He.
  split; [apply join_partition; lia|].
  apply find_index_first in Hs as [[header [Hh Hp]] _].
  exists header, (firstn (e - (s + 1)) (skipn (s + 1) lines)).
  split; [|split; [exact Hp|]].
  - unfold slice.
    assert (Hsk : skipn s lines = header :: skipn (s + 1) lines).
    { clear -Hh. revert s Hh. induction lines as [|x l IH]; intros s Hh.
      - destruct s; discriminate.
      - destruct s as [|s]; simpl in *.
        + now injection Hh as ->.
        + now apply IH. }
    rewrite Hsk. replace (e - s) with (S (e - (s + 1))) by lia.
    reflexivity.
  - intros l Hl. destruct He as [He|[He Hlen]].
    + now apply (find_index_firstn _ _ He).
    + apply (proj1 (find_index_none _ _) He).
      apply In_nth_error in Hl as [j Hj].
      rewrite nth_error_firstn in Hj.
      destruct (j <? e - (s + 1)); [|discriminate].
      now apply nth_error_In with j.
Qed.

Lemma find_module_span_witness :
  exists header body,
    slice 6 9 (splitlines sensor_model) = header :: body /\
    is_module_header (lit "NominalR") header = true /\
    forall l, In l body -> is_any_module_header l = false.
Proof.
  assert (Hf : find_module sensor_model (lit "NominalR") = Ok (6, 9))
    by (vm_compute; reflexivity).
  exact (proj2 (find_module_span sensor_model (lit "NominalR") Hf)).
Defined.

(** ** The fault modes as a set *)

Lemma dedup_first_In (x : str) (xs : list str) :
  In x (dedup_first xs) <-> In x xs.
Proof.
  induction xs as [|y xs IH]; simpl; [tauto|].
  rewrite filter_In, IH. split.
  - intros [->|[H _]]; auto.
  - intros [->|H]; [now left|].
    destruct (str_eqb x y) eqn:Hxy.
    + apply str_eqb_eq in Hxy as ->. now left.
    + right. split; [exact H|reflexivity].
Qed.

Lemma dedup_first_NoDup (xs : list str) : NoDup (dedup_first xs).
Proof.
  induction xs as [|y xs IH]; simpl; constructor.
  - rewrite filter_In. intros [_ H]. now rewrite str_eqb_refl in H.
  - now apply NoDup_filter.
Qed.

Lemma dedup_first_length (xs : list str) :
  length (dedup_first xs) <= length xs.
Proof.
  induction xs as [|y xs IH]; simpl; [lia|].
  pose proof (filter_length_le (fun z => negb (str_eqb z y))
                (dedup_first xs)). lia.
Qed.

Lemma NoDup_map_app (p : str) (xs : list str) :
  NoDup xs -> NoDup (map (app p) xs).
Proof.
  induction 1 as [|x xs Hx Hnd IH]; simpl; constructor; [|exact IH].
  rewrite in_map_iff. intros [y [Hy Hin]].
  apply app_inv_head in Hy as ->. contradiction.
Qed.

(** The fault modes make a set: [none] first, then one mode
    [stuck_<value>] for each value that some fault has, none twice; so
    they are at most one more than the faults. *)
Theorem fault_modes_set (self : StuckAtInjector) :
  NoDup (fault_modes self) /\
  hd_error (fault_modes self) = Some (lit "none") /\
  (forall m,
      In m (fault_modes self) <->
      m = lit "none" \/
      exists f, In f (self_faults self) /\ m = lit "stuck_" ++ value f) /\
  length (fault_modes self) <= 1 + length (self_faults self).
Proof.
  rewrite fault_modes_enumeration. unfold fault_mode_enumeration.
  split; [|split; [reflexivity|split]].
  - constructor.
    + rewrite in_map_iff. intros [v [Hv _]]. discriminate Hv.
    + apply NoDup_map_app, dedup_first_NoDup.
  - intros m. simpl. rewrite in_map_iff. split.
    + intros [<-|[v [<- Hv]]]; [now left|right].
      apply dedup_first_In, in_map_iff in Hv as [f [<- Hf]]. now exists f.
    + intros [->|[f [Hf ->]]]; [now left|right].
      exists (value f). split; [reflexivity|].
      now apply dedup_first_In, in_map.
  - simpl. rewrite length_map.
    pose proof (dedup_first_length (map value (self_faults self))) as H.
    rewrite length_map in H. apply le_n_S. exact H.
Qed.

(** ** The groups of faults *)

Lemma group_add_perm (key : str) (f : Fault) (g : list (str * list Fault)) :
  Permutation (concat (map snd (group_add key f g)))
    (f :: concat (map snd g)).
Proof.
  induction g as [|[k fs] g IH]; simpl; [reflexivity|].
  destruct (str_eqb k key); simpl.
  - rewrite <- app_assoc. simpl. symmetry. apply Permutation_middle.
  - eapply perm_trans; [apply Permutation_app_head, IH|].
    symmetry. apply Permutation_middle.
Qed.

Lemma group_fold_perm (l : list Fault) (g0 : list (str * list Fault)) :
  Permutation
    (concat (map snd
       (fold_left
          (fun groups fault => group_add (variable fault) fault groups)
          l g0)))
    (concat (map snd g0) ++ l).
Proof.
  revert g0; induction l as [|f l IH]; intros g0; simpl.
  - now rewrite app_nil_r.
  - eapply perm_trans; [apply IH|].
    eapply perm_trans; [apply Permutation_app_tail, group_add_perm|].
    simpl. apply Permutation_middle.
Qed.

(** Grouping the faults by variable loses no fault and invents none: the
    keys are the distinct variables in the order of their first fault, the
    group of a variable holds its faults in the order of the fault list,
    and the groups taken together are a permutation of the fault list. *)
Theorem faults_by_var_partition (self : StuckAtInjector) :
  let groups := faults_by_var self in
  map fst groups = dedup_first (map variable (self_faults self)) /\
  (forall k fs, In (k, fs) groups ->
                fs = filter (has_variable k) (self_faults self) /\
                fs <> []) /\
  Permutation (concat (map snd groups)) (self_faults self).
Proof.
  intros groups. split; [|split].
  - unfold groups, faults_by_var. rewrite group_keys_fold, dedup_fold.
    simpl. induction (dedup_first (map variable (self_faults self)))
      as [|x l IH]; simpl; [reflexivity|now rewrite IH].
  - apply (faults_by_var_grouped self).
  - apply (group_fold_perm (self_faults self) []).
Qed.

(** ** The rewrite of a module only inserts *)

Lemma subseq_refl {A} (l : list A) : subseq l l.
Proof.
  induction l; [apply subseq_nil|now apply subseq_take].
Qed.

Lemma subseq_trans {A} (a b c : list A) :
  subseq a b -> subseq b c -> subseq a c.
Proof.
  intros Hab Hbc. revert a Hab.
  induction Hbc as [l|x b c Hbc IH|x b c Hbc IH]; intros a Hab.
  - inversion Hab; subst. apply subseq_nil.
  - apply subseq_skip. now apply IH.
  - inversion Hab as [l|y a' b' Hab'|y a' b' Hab']; subst.
    + apply subseq_nil.
    + apply subseq_skip. now apply IH.
    + apply subseq_take. now apply IH.
Qed.

Lemma subseq_prepend {A} (l a b : list A) :
  subseq a b -> subseq a (l ++ b).
Proof.
  intros H. induction l; simpl; [exact H|now apply subseq_skip].
Qed.

Lemma subseq_app {A} (a a' b b' : list A) :
  subseq a a' -> subseq b b' -> subseq (a ++ b) (a' ++ b').
Proof.
  intros Ha Hb. induction Ha as [l|x a a' Ha IH|x a a' Ha IH]; simpl.
  - now apply subseq_prepend.
  - now apply subseq_skip.
  - now apply subseq_take.
Qed.

Lemma subseq_length {A} (a b : list A) :
  subseq a b -> length a <= length b.
Proof. induction 1; simpl; lia. Qed.

Lemma join_insert (i : nat) (x : str) (l : list str) :
  join (list_insert i x l) = join (firstn i l) ++ x ++ join (skipn i l).
Proof.
  unfold join, list_insert. now rewrite concat_app.
Qed.

Lemma join_insert_subseq (i : nat) (x : str) (l : list str) :
  subseq (join l) (join (list_insert i x l)) /\
  length (join (list_insert i x l)) = length (join l) + length x.
Proof.
  assert (Hj : join l = join (firstn i l) ++ join (skipn i l)).
  { unfold join. now rewrite <- concat_app, firstn_skipn. }
  rewrite join_insert, Hj. split.
  - apply subseq_app; [apply subseq_refl|].
    apply subseq_prepend, subseq_refl.
  - rewrite !length_app. lia.
Qed.

Lemma inject_into_next_assignment_subseq (t v : str) (fs : list Fault)
  (t' : str) :
  _inject_into_next_assignment t v fs = Ok t' -> subseq t t'.
Proof.
  unfold _inject_into_next_assignment.
  destruct (search_case_block v t) as [m|] eqn:Hm; [|discriminate].
  intros [= <-].
  destruct (search_case_block_shape _ _ Hm) as [Ht _]. rewrite Ht at 1.
  apply subseq_app; [apply subseq_refl|]. rewrite <- !app_assoc.
  apply subseq_app; [apply subseq_refl|].
  apply subseq_prepend.
  apply subseq_app; [apply subseq_refl|].
  apply (subseq_prepend (lit "    ")).
  apply subseq_refl.
Qed.

Lemma inject_groups_subseq (groups : list (str * list Fault)) (t t' : str) :
  inject_groups t groups = Ok t' -> subseq t t'.
Proof.
  revert t; induction groups as [|[v fs] g IH]; intros t; simpl.
  - intros [= <-]. apply subseq_refl.
  - destruct (_inject_into_next_assignment t v fs) as [t1|e] eqn:H1;
      [|discriminate].
    simpl. intros H. apply subseq_trans with t1.
    + now apply inject_into_next_assignment_subseq with v fs.
    + now apply IH.
Qed.

(** When the rewrite of a module succeeds, nothing of the module text is
    removed or changed: the result is the module text with insertions, and
    it is longer. *)
Theorem inject_into_module_only_inserts (self : StuckAtInjector)
  (module_text out : str) :
  inject_into_module self module_text = Ok out ->
  subseq module_text out /\ length module_text < length out.
Proof.
  unfold inject_into_module, _inject_fault_conditions.
  destruct (inject_declarations_cases self module_text)
    as [[H _]|[[H _]|[v [a0 [declared [Hv [Ha H]]]]]]];
    rewrite H; simpl; try discriminate.
  intros Hout.
  destruct (inject_declarations_eq self module_text Hv Ha) as [Hd _].
  rewrite H in Hd. injection Hd as Hd.
  assert (Hdecl : subseq module_text (join declared) /\
                  length module_text < length (join declared)).
  { rewrite Hd.
    set (l0 := splitlines module_text).
    set (l1 := list_insert (v + 1) (fault_mode_decl self) l0).
    set (l2 := list_insert (shifted_assign v a0 + 1) init_fault l1).
    destruct (join_insert_subseq (v + 1) (fault_mode_decl self) l0)
      as [S1 L1].
    destruct (join_insert_subseq (shifted_assign v a0 + 1) init_fault l1)
      as [S2 L2].
    destruct (join_insert_subseq
                (_find_insert_position_for_next_fault_mode l2
                   (shifted_assign v a0))
                (_generate_next_fault_mode self) l2) as [S3 L3].
    fold l1 in S1, L1. fold l2 in S2, L2.
    assert (H0 : join l0 = module_text) by apply splitlines_join.
    rewrite H0 in S1, L1. split.
    - eapply subseq_trans; [exact S1|].
      eapply subseq_trans; [exact S2|exact S3].
    - rewrite L3, L2, L1. unfold init_fault. rewrite !length_app.
      simpl. lia. }
  destruct Hdecl as [Hs Hl].
  apply inject_groups_subseq in Hout. split.
  - now apply subseq_trans with (join declared).
  - apply subseq_length in Hout. lia.
Qed.

Lemma inject_into_module_only_inserts_witness :
  exists out,
    inject_into_module sensor_injector sensor_module = Ok out /\
    subseq sensor_module out /\ length sensor_module < length out.
Proof.
  destruct (inject_into_module sensor_injector sensor_module) as [out|e]
    eqn:H; [|vm_compute in H; discriminate H].
  exists out. split; [reflexivity|].
  exact (inject_into_module_only_inserts sensor_injector sensor_module H).
Defined.

(** ** The guard on a block without a flipping line *)

Lemma split_char_join_nl (s : str) :
  join (map (fun line => line ++ nl) (split_char LF s)) = s ++ nl.
Proof.
  unfold join. induction s as [|c s IH]; simpl; [reflexivity|].
  destruct (Ascii.eqb c LF) eqn:Hc.
  - apply Ascii.eqb_eq in Hc as ->. simpl. now rewrite IH.
  - destruct (split_char LF s) as [|l ls]; simpl in *.
    + destruct s; discriminate IH.
    + now rewrite <- IH.
Qed.

Lemma split_char_nonempty (sep : ascii) (s : str) : split_char sep s <> [].
Proof.
  destruct s as [|c s]; simpl; [discriminate|].
  destruct (Ascii.eqb c sep); [discriminate|].
  destruct (split_char sep s); discriminate.
Qed.

Lemma split_char_head (sep : ascii) (s l : str) (ls : list str) :
  split_char sep s = l :: ls -> exists b, s = l ++ b.
Proof.
  revert l ls; induction s as [|c s IH]; intros l ls; simpl.
  - intros [= <- <-]. now exists [].
  - destruct (Ascii.eqb c sep); [intros [= <- <-]; now exists (c :: s)|].
    destruct (split_char sep s) as [|l' ls'] eqn:Hsp.
    + now destruct (split_char_nonempty sep s).
    + intros [= <- <-]. destruct (IH _ _ eq_refl) as [b ->].
      now exists b.
Qed.

Lemma split_char_In (sep : ascii) (s line : str) :
  In line (split_char sep s) -> exists a b, s = a ++ line ++ b.
Proof.
  revert line; induction s as [|c s IH]; intros line; simpl.
  - intros [<-|[]]. now exists [], [].
  - destruct (Ascii.eqb c sep).
    + intros [<-|Hin].
      * now exists [], (c :: s).
      * destruct (IH _ Hin) as [a [b ->]]. now exists (c :: a), b.
    + destruct (split_char sep s) as [|l ls] eqn:Hsp.
      * now destruct (split_char_nonempty sep s).
      * intros [<-|Hin].
        -- destruct (split_char_head _ _ Hsp) as [b ->].
           now exists [], b.
        -- destruct (IH line (or_intror Hin)) as [a [b ->]].
           now exists (c :: a), b.
Qed.

Lemma contains_startswith (p s : str) :
  startswith p s = true -> contains p s = true.
Proof.
  intros H. destruct s; simpl; now rewrite H.
Qed.

Lemma contains_app (p a b : str) : contains p (a ++ p ++ b) = true.
Proof.
  induction a as [|c a IH].
  - change ([] ++ p ++ b) with (p ++ b).
    apply contains_startswith, startswith_app.
  - simpl. now rewrite IH, orb_true_r.
Qed.

Lemma contains_split (p s : str) :
  contains p s = true -> exists a b, s = a ++ p ++ b.
Proof.
  induction s as [|c s IH]; simpl; rewrite orb_true_iff.
  - intros [H|H]; [|discriminate].
    apply startswith_iff in H as [r ->]. now exists [], r.
  - intros [H|H].
    + apply startswith_iff in H as [r ->]. now exists [], r.
    + destruct (IH H) as [a [b ->]]. now exists (c :: a), b.
Qed.

Lemma contains_in_line (p s line : str) :
  In line (split_char LF s) -> contains p s = false ->
  contains p line = false.
Proof.
  intros Hin Hs. apply not_true_iff_false. intros Hl.
  apply split_char_In in Hin as [a [b ->]].
  apply contains_split in Hl as [x [y ->]].
  assert (Hc : contains p (a ++ (x ++ p ++ y) ++ b) = true).
  { replace (a ++ (x ++ p ++ y) ++ b) with ((a ++ x) ++ p ++ (y ++ b))
      by now rewrite <- !app_assoc.
    apply contains_app. }
  congruence.
Qed.

(** On a text whose toggle block holds no [!request_toggle], the guard
    step is not the identity: it returns the text with a line feed and four
    spaces inserted before the [esac;] of the block, and nothing else
    changed. *)
Theorem protect_toggle_without_flip (module_text : str) (m : case_match) :
  search_case_block toggle module_text = Some m ->
  contains (lit "!request_toggle") (group2 m) = false ->
  module_text =
    before m ++ group1 m ++ group2 m ++ lit "esac;" ++ after m /\
  protect_toggle_logic module_text =
    before m ++ group1 m ++ group2 m ++ nl ++ lit "    esac;" ++ after m.
Proof.
  intros Hm Hno.
  destruct (search_case_block_shape _ _ Hm) as [Ht [H3 _]].
  split; [now rewrite <- H3|].
  unfold protect_toggle_logic. rewrite Hm, H3.
  assert (Hmap : map protect_line (split_char LF (group2 m)) =
                 map (fun line => line ++ nl) (split_char LF (group2 m))).
  { apply map_ext_in. intros line Hin. unfold protect_line.
    now rewrite (contains_in_line _ _ _ Hin Hno). }
  rewrite Hmap, split_char_join_nl. now rewrite <- !app_assoc.
Qed.

Lemma protect_toggle_without_flip_witness :
  protect_toggle_logic
    (lit "next(request_toggle) := case TRUE : request_toggle; esac;") =
  lit "next(request_toggle) := case TRUE : request_toggle; " ++ nl ++
  lit "    esac;".
Proof.
  exact (proj2 (@protect_toggle_without_flip
                  (lit "next(request_toggle) := case TRUE : request_toggle; esac;")
                  (mkCaseMatch [] (lit "next(request_toggle) := case")
                     (lit " TRUE : request_toggle; ") (lit "esac;") [])
                  eq_refl eq_refl)).
Defined.

(** ** The engine's rewrite of the model *)

(** [inject] changes the lines of the target module only: on success the
    result is the text before the module, the rewritten and guarded
    module, and the text after the module, where the three parts of the
    input make up the input.  It raises exactly the exception that
    [find_module] or the rewrite of the module raises. *)
Theorem inject_frame (self : FaultInjectionEngine) (smv_content : str) :
  let lines := splitlines smv_content in
  let target := target_module (fault_model self) in
  (forall out,
      inject self smv_content = Ok out <->
      exists s e modified,
        find_module smv_content target = Ok (s, e) /\
        inject_into_module (injector self) (join (slice s e lines)) =
          Ok modified /\
        out = join (firstn s lines) ++ protect_toggle_logic modified ++
              join (skipn e lines)) /\
  (forall s e,
      find_module smv_content target = Ok (s, e) ->
      smv_content = join (firstn s lines) ++ join (slice s e lines) ++
                    join (skipn e lines)) /\
  (forall err,
      inject self smv_content = Raise err <->
      find_module smv_content target = Raise err \/
      exists s e,
        find_module smv_content target = Ok (s, e) /\
        inject_into_module (injector self) (join (slice s e lines)) =
          Raise err).
Proof.
  intros lines target. unfold inject. fold target. fold lines.
  split; [|split].
  - intros out. split.
    + destruct (find_module smv_content target) as [[s e]|err];
        simpl; [|discriminate].
      destruct (inject_into_module (injector self) (join (slice s e lines)))
        as [modified|err] eqn:Hm; simpl; [|discriminate].
      intros [= <-]. now exists s, e, modified.
    + intros [s [e [modified [Hf [Hm ->]]]]]. rewrite Hf. simpl.
      now rewrite Hm.
  - intros s e Hf. symmetry. apply join_partition.
    destruct (find_module_bounds _ _ Hf) as [Hse _]. lia.
  - intros err. split.
    + destruct (find_module smv_content target) as [[s e]|err0];
        simpl; [|intros [= <-]; now left].
      destruct (inject_into_module (injector self) (join (slice s e lines)))
        as [modified|err0] eqn:Hm; simpl; [discriminate|].
      intros [= <-]. right. now exists s, e.
    + intros [Hf|[s [e [Hf Hm]]]]; rewrite Hf; simpl; [reflexivity|].
      now rewrite Hm.
Qed.

(** ** Replication of the wrapper's instance lines *)

Lemma flat_map_expand_unparsed (fm : FaultModel) (ls : list str) :
  (forall line, In line ls -> contains (instance_needle fm) line = true ->
                match_instance line = None) ->
  flat_map (expand_line fm) ls = ls.
Proof.
  induction ls as [|l ls IH]; intros H; simpl; [reflexivity|].
  rewrite IH by (intros line Hl; apply H; now right). unfold expand_line.
  destruct (contains (instance_needle fm) l) eqn:Hc; [|reflexivity].
  now rewrite (H l (or_introl eq_refl) Hc).
Qed.

(** With a count of two or more, when the wrapper module holds lines with
    [: process <target>] and none of them has the shape of an instance
    declaration, the text comes back unchanged and no warning is
    printed. *)
Theorem replicate_unparsed_lines_kept (self : FaultInjectionEngine)
  (smv_content : str) (s e : nat) :
  let fm := fault_model self in
  let nominal_lines := slice s e (splitlines smv_content) in
  (2 <= redundancy fm)%Z ->
  find_module smv_content (lit "NominalR") = Ok (s, e) ->
  existsb (contains (instance_needle fm)) nominal_lines = true ->
  (forall line, In line nominal_lines ->
                contains (instance_needle fm) line = true ->
                match_instance line = None) ->
  replicate_for_redundancy self smv_content = (smv_content, []).
Proof.
  intros fm nominal_lines HN Hfind Hex Hnone.
  rewrite (replicate_found self smv_content HN Hfind).
  fold fm. fold nominal_lines. rewrite Hex.
  rewrite flat_map_expand_unparsed by exact Hnone.
  f_equal. apply join_partition.
  destruct (find_module_bounds _ _ Hfind) as [Hse _]. lia.
Qed.

Lemma replicate_unparsed_lines_kept_witness :
  replicate_for_redundancy sensor_engine unparsed_model =
  (unparsed_model, []).
Proof.
  assert (HN : (2 <= redundancy (fault_model sensor_engine))%Z)
    by (simpl; lia).
  assert (Hf : find_module unparsed_model (lit "NominalR") = Ok (6, 9))
    by (vm_compute; reflexivity).
  apply (replicate_unparsed_lines_kept sensor_engine unparsed_model HN Hf).
  - vm_compute. reflexivity.
  - intros line Hin Hc.
    assert (Hl : slice 6 9 (splitlines unparsed_model) =
                 wrapper_lines ++ [lit "  s1 : process Sensor;
"]) by (vm_compute; reflexivity).
    rewrite Hl in Hin.
    destruct Hin as [<-|[<-|[<-|[]]]];
      try (vm_compute in Hc; discriminate Hc).
    vm_compute. reflexivity.
Defined.

Lemma word_not_space (c : ascii) : is_word c = true -> is_space c = false.
Proof.
  destruct c as [[] [] [] [] [] [] [] []]; vm_compute;
    intros H; try reflexivity; discriminate H.
Qed.

Lemma lazy_dots_until_paren (params rest : str) :
  forallb (fun c => negb (is_lf c)) params = true ->
  contains (lit ");") params = false ->
  lazy_dots_until (lit ");") (params ++ lit ");" ++ rest) =
  Some (params, rest).
Proof.
  induction params as [|c ps IH]; intros Hlf Hno; [reflexivity|].
  simpl in Hlf. apply andb_true_iff in Hlf as [Hc Hlf].
  apply negb_true_iff in Hc.
  assert (Hno' : startswith (lit ");") (c :: ps) = false /\
                 contains (lit ");") ps = false).
  { change (contains (lit ");") (c :: ps))
      with (startswith (lit ");") (c :: ps) || contains (lit ");") ps)
      in Hno.
    now apply orb_false_iff in Hno. }
  destruct Hno' as [Hst Hps].
  assert (Hsp : strip_prefix (lit ");") ((c :: ps) ++ lit ");" ++ rest) =
                None).
  { change (strip_prefix (lit ");") ((c :: ps) ++ lit ");" ++ rest))
      with (if Ascii.eqb ")" c
            then strip_prefix [";"%char] (ps ++ lit ");" ++ rest)
            else None).
    destruct (Ascii.eqb ")" c) eqn:H1; [|reflexivity].
    destruct ps as [|d ps']; [reflexivity|].
    change (strip_prefix [";"%char] ((d :: ps') ++ lit ");" ++ rest))
      with (if Ascii.eqb ";" d then Some (ps' ++ lit ");" ++ rest)
            else None).
    destruct (Ascii.eqb ";" d) eqn:H2; [|reflexivity].
    change (startswith (lit ");") (c :: d :: ps'))
      with (Ascii.eqb ")" c && (Ascii.eqb ";" d && true)) in Hst.
    rewrite H1, H2 in Hst. discriminate Hst. }
  change (lazy_dots_until (lit ");") ((c :: ps) ++ lit ");" ++ rest))
    with (match strip_prefix (lit ");") ((c :: ps) ++ lit ");" ++ rest) with
          | Some r => Some ([], r)
          | None =>
              if is_lf c then None
              else match lazy_dots_until (lit ");")
                           (ps ++ lit ");" ++ rest) with
                   | Some (a, b) => Some (c :: a, b)
                   | None => None
                   end
          end).
  now rewrite Hsp, Hc, (IH Hlf Hps).
Qed.

Lemma uint_digits_word (d : Decimal.uint) :
  forallb is_word (lit (NilEmpty.string_of_uint d)) = true.
Proof.
  induction d; simpl; try reflexivity; exact IHd.
Qed.

Lemma str_of_Z_word (i : Z) :
  (0 <= i)%Z -> forallb is_word (str_of_Z i) = true.
Proof.
  intros Hi. unfold str_of_Z.
  destruct i as [|p|p]; [reflexivity| |lia].
  unfold Z.to_int, NilZero.string_of_int, NilZero.string_of_uint.
  destruct (Pos.to_uint p); try apply uint_digits_word. reflexivity.
Qed.

Lemma match_new_instance (indent name module params : str) (i : Z) :
  forallb is_space indent = true ->
  forallb is_word name = true ->
  forallb is_word module = true -> module <> [] ->
  forallb (fun c => negb (is_lf c)) params = true ->
  contains (lit ");") params = false ->
  (0 <= i)%Z ->
  match_instance (new_instance indent name module params i) =
  Some (indent, name ++ lit "_" ++ str_of_Z i, module, params).
Proof.
  intros Hind Hname Hmod Hne Hlf Hpar Hi.
  set (W := name ++ lit "_" ++ str_of_Z i).
  assert (HW : forallb is_word W = true).
  { unfold W. rewrite !forallb_app, Hname, (str_of_Z_word Hi). reflexivity. }
  set (R3 := params ++ lit ");" ++ nl).
  assert (Hshape : new_instance indent name module params i =
                   indent ++ W ++ " "%char :: ":"%char :: " "%char ::
                   lit "process" ++ " "%char :: module ++ "("%char :: R3).
  { unfold new_instance, W, R3. now rewrite <- !app_assoc. }
  rewrite Hshape. unfold match_instance.
  destruct W as [|w0 W'] eqn:HeqW.
  { unfold W in HeqW. destruct name; discriminate HeqW. }
  destruct module as [|m0 M'] eqn:HeqM; [congruence|].
  assert (Hw0 : is_word w0 = true)
    by (simpl in HW; now apply andb_true_iff in HW).
  assert (Hm0 : is_word m0 = true)
    by (simpl in Hmod; now apply andb_true_iff in Hmod).
  change (indent ++ (w0 :: W') ++ ?r) with (indent ++ w0 :: (W' ++ r)).
  rewrite (span_stop is_space indent w0 _ Hind (word_not_space _ Hw0)).
  change (w0 :: W' ++ ?r) with ((w0 :: W') ++ r).
  rewrite (span_stop is_word (w0 :: W') " " _ HW eq_refl).
  cbv beta iota.
  change (" "%char :: ":"%char :: ?r) with ([" "%char] ++ ":"%char :: r).
  rewrite (span_stop is_space [" "%char] ":" _ eq_refl eq_refl).
  cbv beta iota.
  change (strip_prefix (lit ":") (":"%char :: ?r)) with (Some r).
  cbv beta iota.
  change (" "%char :: lit "process" ++ ?r)
    with ([" "%char] ++ "p"%char :: (lit "rocess" ++ r)).
  rewrite (span_stop is_space [" "%char] "p" _ eq_refl eq_refl).
  cbv beta iota.
  change ("p"%char :: lit "rocess" ++ ?r) with (lit "process" ++ r).
  rewrite strip_prefix_same.
  change (" "%char :: (m0 :: M') ++ ?r)
    with ([" "%char] ++ m0 :: (M' ++ r)).
  rewrite (span_stop is_space [" "%char] m0 _ eq_refl
             (word_not_space _ Hm0)).
  cbv beta iota.
  change (m0 :: M' ++ ?r) with ((m0 :: M') ++ r).
  rewrite (span_stop is_word (m0 :: M') "(" _ Hmod eq_refl).
  cbv beta iota.
  change (strip_prefix (lit "(") ("("%char :: R3)) with (Some R3).
  cbv beta iota. unfold R3.
  now rewrite (lazy_dots_until_paren params nl Hlf Hpar).
Qed.

(** An instance line written by the replication has the shape of an
    instance declaration: matching it gives back its indentation, its
    suffixed name, its module name and its parameters. *)
Theorem new_instance_matches (indent name module params : str) (i : Z) :
  forallb is_space indent = true ->
  forallb is_word name = true ->
  forallb is_word module = true -> module <> [] ->
  forallb (fun c => negb (is_lf c)) params = true ->
  contains (lit ");") params = false ->
  (0 <= i)%Z ->
  match_instance (new_instance indent name module params i) =
  Some (indent, name ++ lit "_" ++ str_of_Z i, module, params).
Proof.
  apply match_new_instance.
Qed.

Lemma new_instance_matches_witness :
  match_instance (new_instance (lit "  ") (lit "s1") (lit "Sensor")
                    (lit "a, b") 2) =
  Some (lit "  ", lit "s1_2", lit "Sensor", lit "a, b").
Proof.
  apply (@new_instance_matches (lit "  ") (lit "s1") (lit "Sensor")
           (lit "a, b") 2); try reflexivity; [discriminate|lia].
Defined.

(** Replication does not recognise its own output: a line it has written
    for an instance of the target module passes the test of the loop
    again, so a second run over the text replaces every instance
    [<name>_i] by the instances [<name>_i_1] to [<name>_i_N]. *)
Theorem replicate_step_on_new_instance (fm : FaultModel)
  (indent name rest params : str) (i : Z)
  (new_nominal : list str) (found_target : bool) :
  let module := target_module fm ++ rest in
  forallb is_space indent = true ->
  forallb is_word name = true ->
  forallb is_word module = true -> module <> [] ->
  forallb (fun c => negb (is_lf c)) params = true ->
  contains (lit ");") params = false ->
  (0 <= i)%Z ->
  replicate_step fm (new_nominal, found_target)
    (new_instance indent name module params i) =
  (new_nominal ++
   map (new_instance indent (name ++ lit "_" ++ str_of_Z i) module params)
     (range 1 (redundancy fm + 1)),
   true).
Proof.
  intros module Hind Hname Hmod Hne Hlf Hpar Hi.
  unfold replicate_step.
  assert (Hc : contains (instance_needle fm)
                 (new_instance indent name module params i) = true).
  { unfold new_instance, instance_needle, module.
    replace (indent ++ name ++ lit "_" ++ str_of_Z i ++ lit " : process " ++
             (target_module fm ++ rest) ++ lit "(" ++ params ++ lit ");" ++ nl)
      with ((indent ++ name ++ lit "_" ++ str_of_Z i ++ lit " ") ++
            (lit ": process " ++ target_module fm) ++
            (rest ++ lit "(" ++ params ++ lit ");" ++ nl)).
    - apply contains_app.
    - rewrite <- !app_assoc. reflexivity. }
  rewrite Hc.
  now rewrite (@match_new_instance indent name module params i Hind
                Hname Hmod Hne Hlf Hpar Hi).
Qed.

Lemma replicate_step_on_new_instance_witness :
  replicate_step (fault_model sensor_engine) ([], false)
    (lit "  s1_2 : process Sensor(a, b);
") =
  ([lit "  s1_2_1 : process Sensor(a, b);
"; lit "  s1_2_2 : process Sensor(a, b);
"; lit "  s1_2_3 : process Sensor(a, b);
"], true).
Proof.
  apply (@replicate_step_on_new_instance (fault_model sensor_engine)
           (lit "  ") (lit "s1") [] (lit "a, b") 2 [] false);
    try reflexivity; [discriminate|lia].
Defined.

(** ** [script.py]: the one-fault injector *)

Lemma fold_stuck_at_step (fault : Fault) (lines out : list str)
  (iv ia : bool) :
  fold_left (stuck_at_step fault) lines (out, iv, ia) =
  (out ++ stuck_lines fault iv ia lines,
   iv || existsb (is_exact (lit "VAR")) lines,
   ia || existsb (is_exact (lit "ASSIGN")) lines).
Proof.
  revert out iv ia; induction lines as [|line lines IH]; intros out iv ia;
    cbn [fold_left stuck_lines existsb].
  - now rewrite app_nil_r, !orb_false_r.
  - unfold stuck_at_step at 2. fold (is_exact (lit "VAR") line).
    fold (is_exact (lit "ASSIGN") line).
    destruct (is_exact (lit "VAR") line) eqn:Hv;
      destruct (is_exact (lit "ASSIGN") line) eqn:Ha;
      destruct iv; destruct ia; cbn [negb andb orb];
      rewrite IH; cbn [orb]; rewrite <- ?app_assoc; reflexivity.
Qed.

Lemma existsb_find_index {A} (p : A -> bool) (l : list A) :
  existsb p l = match find_index p l with Some _ => true | None => false end.
Proof.
  induction l as [|x l IH]; simpl; [reflexivity|].
  destruct (p x); simpl; [reflexivity|].
  rewrite IH. now destruct (find_index p l).
Qed.

Lemma stuck_lines_done (fault : Fault) (lines : list str) :
  stuck_lines fault true true lines = lines.
Proof.
  induction lines as [|l r IH]; cbn [stuck_lines]; [reflexivity|].
  rewrite !andb_false_r. simpl. now rewrite IH.
Qed.

Lemma stuck_lines_var (fault : Fault) (lines : list str) (v : nat) :
  find_index (is_exact (lit "VAR")) lines = Some v ->
  stuck_lines fault false true lines = list_insert (v + 1) stuck_decl lines.
Proof.
  revert v; induction lines as [|l r IH]; intros v; [discriminate|].
  cbn [stuck_lines find_index]. rewrite andb_false_r.
  destruct (is_exact (lit "VAR") l); cbn [negb andb orb app].
  - intros [= <-]. now rewrite stuck_lines_done.
  - destruct (find_index (is_exact (lit "VAR")) r) as [k|]; [|discriminate].
    intros [= <-]. now rewrite (IH k eq_refl).
Qed.

Lemma stuck_lines_assign (fault : Fault) (lines : list str) (a : nat) :
  find_index (is_exact (lit "ASSIGN")) lines = Some a ->
  stuck_lines fault true false lines =
  list_insert (a + 1) (stuck_assign fault) lines.
Proof.
  revert a; induction lines as [|l r IH]; intros a; [discriminate|].
  cbn [stuck_lines find_index]. rewrite andb_false_r.
  destruct (is_exact (lit "ASSIGN") l); cbn [negb andb orb app].
  - intros [= <-]. now rewrite stuck_lines_done.
  - destruct (find_index (is_exact (lit "ASSIGN")) r) as [k|];
      [|discriminate].
    intros [= <-]. now rewrite (IH k eq_refl).
Qed.

Lemma is_exact_exclusive (line : str) :
  is_exact (lit "VAR") line = true -> is_exact (lit "ASSIGN") line = false.
Proof.
  unfold is_exact. intros H. apply str_eqb_eq in H. now rewrite H.
Qed.

Lemma stuck_lines_both (fault : Fault) (lines : list str) (v a : nat) :
  find_index (is_exact (lit "VAR")) lines = Some v ->
  find_index (is_exact (lit "ASSIGN")) lines = Some a ->
  stuck_lines fault false false lines =
  list_insert (a + 1 + (if v <? a then 1 else 0)) (stuck_assign fault)
    (list_insert (v + 1) stuck_decl lines).
Proof.
  revert v a; induction lines as [|l r IH]; intros v a; [discriminate|].
  cbn [stuck_lines find_index].
  destruct (is_exact (lit "VAR") l) eqn:Hv.
  - rewrite (is_exact_exclusive _ Hv). cbn [negb andb orb app].
    intros [= <-].
    destruct (find_index (is_exact (lit "ASSIGN")) r) as [k|] eqn:Hk;
      [|discriminate].
    intros [= <-]. rewrite (stuck_lines_assign fault r Hk).
    cbn [Nat.ltb Nat.leb]. replace (S k + 1 + 1) with (S (S (k + 1))) by lia.
    reflexivity.
  - cbn [negb andb orb app].
    destruct (find_index (is_exact (lit "VAR")) r) as [j|] eqn:Hj;
      [|discriminate].
    intros [= <-].
    destruct (is_exact (lit "ASSIGN") l) eqn:Ha; cbn [app].
    + intros [= <-]. rewrite (stuck_lines_var fault r Hj).
      cbn [Nat.ltb Nat.leb]. replace (S j + 1) with (S (j + 1)) by lia.
      reflexivity.
    + destruct (find_index (is_exact (lit "ASSIGN")) r) as [k|] eqn:Hk;
        [|discriminate].
      intros [= <-]. rewrite (IH j k eq_refl eq_refl).
      change (S j <? S k) with (j <? k).
      replace (S j + 1) with (S (j + 1)) by lia.
      replace (S k + 1 + (if j <? k then 1 else 0))
        with (S (k + 1 + (if j <? k then 1 else 0))) by lia.
      reflexivity.
Qed.

Lemma inject_stuck_at_lines (module_text : str) (fault : Fault) :
  let lines := splitlines module_text in
  match find_index (is_exact (lit "VAR")) lines,
        find_index (is_exact (lit "ASSIGN")) lines with
  | Some v, Some a =>
      inject_stuck_at module_text fault =
      Done (join (list_insert (a + 1 + (if v <? a then 1 else 0))
                    (stuck_assign fault)
                    (list_insert (v + 1) stuck_decl lines)))
  | _, _ => inject_stuck_at module_text fault = Fails FailedToInject
  end.
Proof.
  intros lines. unfold inject_stuck_at. fold lines.
  rewrite fold_stuck_at_step, !existsb_find_index. cbn [app orb].
  destruct (find_index (is_exact (lit "VAR")) lines) as [v|] eqn:Hv;
    destruct (find_index (is_exact (lit "ASSIGN")) lines) as [a|] eqn:Ha;
    cbn [negb orb]; try reflexivity.
  now rewrite (stuck_lines_both fault lines Hv Ha).
Qed.

(** [inject_stuck_at] succeeds exactly when some line, trimmed, is [VAR]
    and some line, trimmed, is [ASSIGN]; its result is then the lines of
    the module text with the declaration inserted after the first such
    [VAR] line and the assignment after the first such [ASSIGN] line, and
    nothing else changed.  In every other case it raises. *)
Theorem inject_stuck_at_result (module_text : str) (fault : Fault) :
  let lines := splitlines module_text in
  match find_index (is_exact (lit "VAR")) lines,
        find_index (is_exact (lit "ASSIGN")) lines with
  | Some v, Some a =>
      inject_stuck_at module_text fault =
      Done (join (list_insert (a + 1 + (if v <? a then 1 else 0))
                    (stuck_assign fault)
                    (list_insert (v + 1) stuck_decl lines)))
  | _, _ => inject_stuck_at module_text fault = Fails FailedToInject
  end.
Proof.
  exact (inject_stuck_at_lines module_text fault).
Qed.

Lemma is_exact_section (keyword line : str) :
  is_exact keyword line = true -> is_section keyword line = true.
Proof.
  unfold is_exact, is_section. intros H. apply str_eqb_eq in H.
  rewrite H. apply startswith_iff. exists []. now rewrite app_nil_r.
Qed.

Lemma find_index_weaken {A} (p q : A -> bool) (l : list A) (i : nat) :
  (forall x, p x = true -> q x = true) ->
  find_index p l = Some i -> find_index q l <> None.
Proof.
  intros Hpq Hp Hq.
  apply find_index_first in Hp as [[x [Hx Hpx]] _].
  apply (proj1 (find_index_none q l)) with (x := x) in Hq.
  - rewrite (Hpq x Hpx) in Hq. discriminate.
  - now apply nth_error_In with i.
Qed.

(** A module text that [inject_stuck_at] accepts has the two section
    headers that the declaration stage of [StuckAtInjector] looks for: the
    stage succeeds on it, for every injector. *)
Theorem inject_stuck_at_accepts_less (module_text out : str) (fault : Fault)
  (self : StuckAtInjector) :
  inject_stuck_at module_text fault = Done out ->
  exists lines, inject_declarations self module_text = Ok lines.
Proof.
  intros Hdone. pose proof (inject_stuck_at_lines module_text fault) as H.
  cbv zeta in H.
  destruct (find_index (is_exact (lit "VAR")) (splitlines module_text))
    as [v|] eqn:Hv; [|congruence].
  destruct (find_index (is_exact (lit "ASSIGN")) (splitlines module_text))
    as [a|] eqn:Ha; [|congruence].
  destruct (inject_declarations_cases self module_text)
    as [[_ Hnv]|[[_ [_ Hna]]|[v' [a' [lines [_ [_ Hok]]]]]]].
  - destruct (@find_index_weaken _ (is_exact (lit "VAR"))
                (is_section (lit "VAR")) _ v
                (is_exact_section (lit "VAR")) Hv Hnv).
  - destruct (@find_index_weaken _ (is_exact (lit "ASSIGN"))
                (is_section (lit "ASSIGN")) _ a
                (is_exact_section (lit "ASSIGN")) Ha Hna).
  - now exists lines.
Qed.

Lemma inject_stuck_at_accepts_less_witness :
  exists lines, inject_declarations sensor_injector sensor_module = Ok lines.
Proof.
  destruct (inject_stuck_at sensor_module sensor_fault) as [out|e] eqn:H;
    [|vm_compute in H; discriminate H].
  exact (inject_stuck_at_accepts_less sensor_module sensor_fault
           sensor_injector H).
Defined.

(** ** [script.py]: the pipeline of [inject_faults] *)

Lemma create_injector_ok (fm : FaultModel) (inj : StuckAtInjector) :
  _create_injector fm = Ok inj ->
  exists f fs, faults fm = f :: fs /\ type f = stuck_at.
Proof.
  unfold _create_injector.
  destruct (set_eqb (set_of (map type (faults fm))) [stuck_at]) eqn:Heq;
    [|discriminate].
  intros _. unfold set_eqb in Heq. apply andb_true_iff in Heq as [H1 H2].
  rewrite subset_incl in H1, H2.
  destruct (faults fm) as [|f fs] eqn:Hf.
  - destruct (H2 stuck_at (or_introl eq_refl)).
  - exists f, fs. split; [reflexivity|].
    assert (Hin : In (type f) [stuck_at]).
    { apply H1, set_of_In. now left. }
    destruct Hin as [Heq|[]]. now symmetry.
Qed.

(** The two entry points disagree on the fault kind: a fault model that
    the engine of [faults_injector.py] accepts is refused by
    [inject_faults], which knows the kind [stuck_at] and not [stuck-at];
    when the target module is found the exception is the one for an
    unknown fault type. *)
Theorem entry_points_disagree (spec : FaultModel) (inj : StuckAtInjector)
  (smv_content : str) :
  _create_injector spec = Ok inj ->
  (exists e, inject_faults spec smv_content = Fails e) /\
  (forall s e,
      find_module smv_content (target_module spec) = Ok (s, e) ->
      inject_faults spec smv_content = Fails (UnknownFaultType stuck_at)).
Proof.
  intros Hok. destruct (create_injector_ok _ Hok) as [f [fs [Hf Hty]]].
  assert (Hfound : forall s e,
             find_module smv_content (target_module spec) = Ok (s, e) ->
             inject_faults spec smv_content =
             Fails (UnknownFaultType stuck_at)).
  { intros s e Hfind. unfold inject_faults. rewrite Hfind, Hf.
    cbn [apply_faults]. now rewrite Hty. }
  split; [|exact Hfound].
  destruct (find_module smv_content (target_module spec)) as [[s e]|err]
    eqn:Hfind.
  - eexists. now apply (Hfound s e).
  - eexists. unfold inject_faults. now rewrite Hfind.
Qed.

Lemma entry_points_disagree_witness :
  inject_faults (fault_model sensor_engine) sensor_model =
  Fails (UnknownFaultType stuck_at).
Proof.
  assert (Hok : _create_injector (fault_model sensor_engine) =
                Ok sensor_injector) by reflexivity.
  assert (Hf : find_module sensor_model
                 (target_module (fault_model sensor_engine)) = Ok (0, 6))
    by (vm_compute; reflexivity).
  exact (proj2 (entry_points_disagree (fault_model sensor_engine)
                  sensor_model Hok) 0 6 Hf).
Defined.

(** With an empty fault list, which the engine refuses, [inject_faults]
    gives back the model text as it is, provided the target module is
    found. *)
Theorem inject_faults_no_fault (spec : FaultModel) (smv_content : str)
  (s e : nat) :
  faults spec = [] ->
  find_module smv_content (target_module spec) = Ok (s, e) ->
  inject_faults spec smv_content = Done smv_content /\
  exists err, _create_injector spec = Raise err.
Proof.
  intros Hnil Hfind. split.
  - unfold inject_faults. rewrite Hfind, Hnil. cbn [apply_faults].
    f_equal. apply join_partition.
    destruct (find_module_bounds _ _ Hfind) as [Hse _]. lia.
  - unfold _create_injector. rewrite Hnil. eexists. reflexivity.
Qed.

Lemma inject_faults_no_fault_witness :
  inject_faults (mkFaultModel (lit "model.smv") (lit "Sensor") 1 [])
    sensor_model = Done sensor_model.
Proof.
  assert (Hf : find_module sensor_model (lit "Sensor") = Ok (0, 6))
    by (vm_compute; reflexivity).
  exact (proj1 (@inject_faults_no_fault
                  (mkFaultModel (lit "model.smv") (lit "Sensor") 1 [])
                  sensor_model 0 6 eq_refl Hf)).
Defined.

(** ** [xml_parser.py]: what a parsed specification holds *)

Lemma span_snd_head (f : ascii -> bool) (s : str) (c : ascii) (r : str) :
  snd (span f s) = c :: r -> f c = false.
Proof.
  induction s as [|x s IH]; simpl; [discriminate|].
  destruct (f x) eqn:Hx.
  - destruct (span f s) as [a b]. exact IH.
  - now intros [= <- <-].
Qed.

Lemma lstrip_fixed (s : str) :
  match s with [] => True | c :: _ => is_space c = false end ->
  lstrip s = s.
Proof.
  destruct s as [|c s]; [reflexivity|]. intros Hc.
  unfold lstrip. simpl. now rewrite Hc.
Qed.

Lemma lstrip_idem (s : str) : lstrip (lstrip s) = lstrip s.
Proof.
  apply lstrip_fixed. destruct (lstrip s) as [|c r] eqn:H; [exact I|].
  now apply span_snd_head with s r.
Qed.

Lemma rstrip_idem (s : str) : rstrip (rstrip s) = rstrip s.
Proof.
  unfold rstrip. now rewrite rev_involutive, lstrip_idem.
Qed.

Lemma strip_idem (s : str) : strip (strip s) = strip s.
Proof.
  unfold strip.
  assert (H : lstrip (rstrip (lstrip s)) = rstrip (lstrip s)).
  { apply lstrip_fixed.
    destruct (rstrip (lstrip s)) as [|c t] eqn:Hr; [exact I|].
    destruct (rstrip_split (lstrip s)) as [w [Hs _]].
    rewrite Hr in Hs. now apply span_snd_head with s (t ++ w). }
  now rewrite H, rstrip_idem.
Qed.

Lemma strip_last (s : str) :
  strip s <> [] -> is_space (last (strip s) " "%char) = false.
Proof.
  unfold strip, rstrip. intros Hne.
  destruct (lstrip (rev (lstrip s))) as [|c r] eqn:H; [now destruct Hne|].
  simpl. rewrite last_last. now apply span_snd_head with (rev (lstrip s)) r.
Qed.

Lemma parse_faults_read (elems : list Element) (acc fs : list Fault) :
  parse_faults elems acc = Parsed fs ->
  exists new, fs = acc ++ new /\ Forall2 fault_read_from elems new.
Proof.
  revert acc; induction elems as [|e elems IH]; intros acc;
    cbn [parse_faults].
  - intros [= <-]. exists []. now rewrite app_nil_r.
  - destruct (findtext e (lit "type")) as [ty|] eqn:Hty;
      destruct (findtext e (lit "variable")) as [var|] eqn:Hvar;
      destruct (findtext e (lit "value")) as [val|] eqn:Hval;
      try discriminate.
    intros H. destruct (IH _ H) as [new [-> Hall]].
    exists (mkFault (strip ty) (strip var) (strip val) :: new).
    split; [now rewrite <- app_assoc|].
    constructor; [|exact Hall]. now exists ty, var, val.
Qed.

Lemma parse_faults_rejected (elems : list Element) (acc : list Fault)
  (e : xml_exn) :
  parse_faults elems acc = Rejected e <->
  e = IncompleteFault /\ existsb incomplete elems = true.
Proof.
  revert acc; induction elems as [|x elems IH]; intros acc;
    cbn [parse_faults existsb].
  - split; [discriminate|intros [_ H]; discriminate].
  - unfold incomplete at 1.
    destruct (findtext x (lit "type")) as [ty|];
      destruct (findtext x (lit "variable")) as [var|];
      destruct (findtext x (lit "value")) as [val|];
      try (split; [intros [= <-]|intros [-> _]]; auto).
    simpl. apply IH.
Qed.

Section XmlProperties.

Variable py_int : str -> option Z.

Lemma parse_fault_model_faults (root : Element) (fm : FaultModel) :
  parse_fault_model py_int root = Parsed fm ->
  Forall2 fault_read_from (fault_elements root) (faults fm).
Proof.
  unfold parse_fault_model, fault_elements.
  destruct (findtext root (lit "model")) as [mt|]; [|discriminate].
  destruct (findtext root (lit "target-module")) as [tt|]; [|discriminate].
  destruct (match find_child root (lit "redundancy") with
            | Some redundancy_elem => _
            | None => Parsed 1%Z
            end) as [n|e]; [|discriminate].
  destruct (find_child root (lit "faults")) as [fe|].
  - destruct (parse_faults (findall fe (lit "fault")) []) as [fs|e] eqn:Hp;
      [|discriminate].
    intros [= <-]. simpl.
    now apply parse_faults_read in Hp as [new [-> Hall]].
  - intros [= <-]. constructor.
Qed.

(** A parsed specification holds trimmed names: the model file, the target
    module and the three fields of every fault have no white space at
    either end, so a target module name that is not empty ends in a
    character other than white space.  Its faults are the [fault]
    elements of the element [faults], as many and in document order. *)
Theorem parse_fault_model_fields (root : Element) (fm : FaultModel) :
  parse_fault_model py_int root = Parsed fm ->
  strip (model_file fm) = model_file fm /\
  strip (target_module fm) = target_module fm /\
  (target_module fm <> [] ->
   is_space (last (target_module fm) " "%char) = false) /\
  Forall2 fault_read_from (fault_elements root) (faults fm) /\
  Forall (fun f => strip (type f) = type f /\
                   strip (variable f) = variable f /\
                   strip (value f) = value f) (faults fm).
Proof.
  unfold parse_fault_model, fault_elements.
  destruct (findtext root (lit "model")) as [mt|]; [|discriminate].
  destruct (findtext root (lit "target-module")) as [tt|]; [|discriminate].
  destruct (match find_child root (lit "redundancy") with
            | Some redundancy_elem => _
            | None => Parsed 1%Z
            end) as [n|e]; [|discriminate].
  assert (Hfaults : forall elems fs,
             parse_faults elems [] = Parsed fs ->
             Forall2 fault_read_from elems fs /\
             Forall (fun f => strip (type f) = type f /\
                              strip (variable f) = variable f /\
                              strip (value f) = value f) fs).
  { intros elems fs H. apply parse_faults_read in H as [new [-> Hall]].
    simpl. split; [exact Hall|].
    clear -Hall. induction Hall as [|e f es fs Hf _ IH]; constructor;
      [|exact IH].
    destruct Hf as [ty [var [val [_ [_ [_ ->]]]]]]. simpl.
    now rewrite !strip_idem. }
  destruct (find_child root (lit "faults")) as [fe|].
  - destruct (parse_faults (findall fe (lit "fault")) []) as [fs|e] eqn:Hp;
      [|discriminate].
    intros [= <-]. simpl. destruct (Hfaults _ _ Hp) as [H1 H2].
    repeat split; try apply strip_idem; try assumption.
    apply strip_last.
  - intros [= <-]. simpl.
    repeat split; try apply strip_idem; try constructor.
    apply strip_last.
Qed.

(** The checks on the root element, once the library has parsed the
    file: a root without a [model] child is refused; then one without a
    [target-module] child; then a [redundancy] element whose count is no
    integer; then a [fault] element that lacks one of its three children.
    A missing [redundancy] or [faults] element is no error. *)
Lemma parse_fault_model_rejects (root : Element) (e : xml_exn) :
  parse_fault_model py_int root = Rejected e <->
  (e = MissingModel /\ findtext root (lit "model") = None) \/
  (findtext root (lit "model") <> None /\
   ((e = MissingTargetModule /\
     findtext root (lit "target-module") = None) \/
    (findtext root (lit "target-module") <> None /\
     ((exists r,
          find_child root (lit "redundancy") = Some r /\
          py_int (count_text r) = None /\
          e = InvalidInteger (count_text r)) \/
      ((forall r, find_child root (lit "redundancy") = Some r ->
                  py_int (count_text r) <> None) /\
       e = IncompleteFault /\
       existsb incomplete (fault_elements root) = true))))).
Proof.
  unfold parse_fault_model, fault_elements.
  destruct (findtext root (lit "model")) as [mt|].
  2:{ split; [intros [= <-]; now left|].
      intros [[-> _]|[H _]]; [reflexivity|congruence]. }
  destruct (findtext root (lit "target-module")) as [tt|].
  2:{ split; [intros [= <-]; right; split; [discriminate|now left]|].
      intros [[_ H]|[_ [[-> _]|[H _]]]]; congruence. }
  destruct (find_child root (lit "redundancy")) as [r|].
  - fold (count_text r). destruct (py_int (count_text r)) as [n|] eqn:Hn.
    + split.
      * intros H. right. split; [discriminate|]. right.
        split; [discriminate|]. right.
        split; [intros r' [= <-]; congruence|].
        destruct (find_child root (lit "faults")) as [fe|];
          [|discriminate].
        destruct (parse_faults (findall fe (lit "fault")) []) as [fs|e']
          eqn:Hp; [discriminate|].
        injection H as <-. now apply parse_faults_rejected in Hp.
      * intros [[_ H]|[_ [[_ H]|[_ [[r' [[= <-] [H _]]]|[_ [-> Hex]]]]]]];
          try congruence.
        destruct (find_child root (lit "faults")) as [fe|];
          [|discriminate].
        assert (Hp : parse_faults (findall fe (lit "fault")) [] =
                     Rejected IncompleteFault)
          by now apply parse_faults_rejected.
        now rewrite Hp.
    + split.
      * intros [= <-]. right. split; [discriminate|]. right.
        split; [discriminate|]. left. now exists r.
      * intros [[_ H]|[_ [[_ H]|[_ [[r' [[= <-] [_ ->]]]|[H _]]]]]];
          try congruence.
        destruct (H r eq_refl Hn).
  - split.
    + intros H. right. split; [discriminate|]. right.
      split; [discriminate|]. right. split; [discriminate|].
      destruct (find_child root (lit "faults")) as [fe|]; [|discriminate].
      destruct (parse_faults (findall fe (lit "fault")) []) as [fs|e']
        eqn:Hp; [discriminate|].
      injection H as <-. now apply parse_faults_rejected in Hp.
    + intros [[_ H]|[_ [[_ H]|[_ [[r' [H _]]|[_ [-> Hex]]]]]]];
        try congruence.
      destruct (find_child root (lit "faults")) as [fe|]; [|discriminate].
      assert (Hp : parse_faults (findall fe (lit "fault")) [] =
                   Rejected IncompleteFault)
        by now apply parse_faults_rejected.
      now rewrite Hp.
Qed.

(** [parse_fault_model] from the path raises in these cases and no other:
    the library raises on the file, and its exception goes through; or the
    library returns a root element and one of the checks on it fails, in
    their order: no [model] child, no [target-module] child, a
    [redundancy] element whose count is no integer, a [fault] element that
    lacks one of its three children.  It returns a fault model exactly
    when the library returns a root that none of the checks refuses. *)
Theorem parse_fault_model_raises (et_parse : str -> option Element)
  (xml_path : str) :
  (parse_fault_model_path et_parse py_int xml_path = LibraryRaises <->
   et_parse xml_path = None) /\
  (forall e,
      parse_fault_model_path et_parse py_int xml_path = Returns (Rejected e)
      <-> exists root,
            et_parse xml_path = Some root /\ refused_root py_int root e) /\
  ((exists fm,
       parse_fault_model_path et_parse py_int xml_path =
       Returns (Parsed fm))
   <-> exists root,
         et_parse xml_path = Some root /\
         forall e, ~ refused_root py_int root e).
Proof.
  unfold parse_fault_model_path.
  destruct (et_parse xml_path) as [root|]; split; [| split | | split].
  - split; discriminate.
  - intros e. split.
    + intros [= H]. exists root. split; [reflexivity|].
      now apply parse_fault_model_rejects.
    + intros [root' [[= <-] H]]. f_equal.
      now apply parse_fault_model_rejects.
  - split.
    + intros [fm [= H]]. exists root. split; [reflexivity|].
      intros e He. apply parse_fault_model_rejects in He. congruence.
    + intros [root' [[= <-] H]].
      destruct (parse_fault_model py_int root) as [fm|e] eqn:Hp; [eauto|].
      destruct (H e). now apply parse_fault_model_rejects.
  - split; reflexivity.
  - intros e. split; [discriminate|]. intros [root [H _]]. discriminate.
  - split; [intros [fm H]; discriminate|].
    intros [root [H _]]. discriminate.
Qed.

(** A specification file that the library parses, with a [model] and a
    [target-module] element, a count of [redundancy] that is an integer
    or no such element, and no [fault] element (no [faults] element, or an
    empty one) is parsed without error into a fault model without faults,
    and the engine then refuses that fault model: creating the injector
    raises. *)
Theorem parse_without_faults_refused (et_parse : str -> option Element)
  (xml_path : str) (root : Element) :
  et_parse xml_path = Some root ->
  findtext root (lit "model") <> None ->
  findtext root (lit "target-module") <> None ->
  (forall r, find_child root (lit "redundancy") = Some r ->
             py_int (count_text r) <> None) ->
  fault_elements root = [] ->
  exists fm,
    parse_fault_model_path et_parse py_int xml_path = Returns (Parsed fm) /\
    faults fm = [] /\
    _create_injector fm = Raise (UnsupportedFaultTypes []).
Proof.
  intros Hroot Hmodel Htarget Hcount Hnone.
  unfold parse_fault_model_path. rewrite Hroot.
  destruct (parse_fault_model py_int root) as [fm|e] eqn:Hp.
  - exists fm. split; [reflexivity|].
    pose proof (parse_fault_model_faults root Hp) as Hall.
    rewrite Hnone in Hall.
    assert (Hnil : faults fm = []) by now inversion Hall.
    split; [exact Hnil|]. unfold _create_injector.
    now rewrite Hnil.
  - apply parse_fault_model_rejects in Hp.
    destruct Hp as [[_ H]|[_ [[_ H]|[_ [[r [Hr [Hn _]]]|[_ [_ Hex]]]]]]].
    + contradiction.
    + contradiction.
    + destruct (Hcount r Hr Hn).
    + rewrite Hnone in Hex. discriminate.
Qed.

End XmlProperties.

Lemma parse_fault_model_fields_witness :
  parse_fault_model sample_int sample_root =
  Parsed (fault_model sensor_engine) /\
  strip (target_module (fault_model sensor_engine)) =
  target_module (fault_model sensor_engine).
Proof.
  assert (Hp : parse_fault_model sample_int sample_root =
               Parsed (fault_model sensor_engine))
    by (vm_compute; reflexivity).
  split; [exact Hp|].
  exact (proj1 (proj2 (parse_fault_model_fields sample_int sample_root Hp))).
Defined.

Lemma parse_without_faults_refused_witness :
  exists fm,
    parse_fault_model_path (fun _ => Some faultless_root) sample_int
      (lit "faults.xml") = Returns (Parsed fm) /\
    faults fm = [] /\
    _create_injector fm = Raise (UnsupportedFaultTypes []).
Proof.
  apply (@parse_without_faults_refused sample_int
           (fun _ => Some faultless_root) (lit "faults.xml") faultless_root).
  - reflexivity.
  - vm_compute. discriminate.
  - vm_compute. discriminate.
  - intros r Hr. vm_compute in Hr. discriminate Hr.
  - reflexivity.
Defined.

Lemma inject_frame_witness :
  sensor_model =
  join (firstn 0 (splitlines sensor_model)) ++
  join (slice 0 6 (splitlines sensor_model)) ++
  join (skipn 6 (splitlines sensor_model)).
Proof.
  assert (Hf : find_module sensor_model
                 (target_module (fault_model sensor_engine)) = Ok (0, 6))
    by (vm_compute; reflexivity).
  exact (proj1 (proj2 (inject_frame sensor_engine sensor_model)) 0 6 Hf).
Defined.

(** ** [script.py]: several faults *)

Lemma cr_is_linebreak (c : ascii) : is_cr c = true -> is_linebreak c = true.
Proof.
  destruct c as [[] [] [] [] [] [] [] []]; vm_compute;
    intros H; try reflexivity; discriminate H.
Qed.

Lemma lf_ends_line (c : ascii) (rest : str) :
  is_lf c = true -> ends_line c rest = true.
Proof.
  destruct c as [[] [] [] [] [] [] [] []]; vm_compute;
    intros H; try reflexivity; discriminate H.
Qed.

Lemma splitlines_body (body : str) (c : ascii) (rest : str) :
  no_break body = true -> is_lf c = true ->
  splitlines (body ++ c :: rest) = (body ++ [c]) :: splitlines rest.
Proof.
  intros Hb Hc. induction body as [|x body IH].
  - cbn [app splitlines]. now rewrite (lf_ends_line _ rest Hc).
  - cbn [no_break forallb] in Hb. apply andb_true_iff in Hb as [Hx Hb].
    apply negb_true_iff in Hx. cbn [app splitlines].
    assert (He : ends_line x (body ++ c :: rest) = false).
    { unfold ends_line. destruct (is_cr x) eqn:Hcr; [|exact Hx].
      apply cr_is_linebreak in Hcr. congruence. }
    rewrite He, (IH Hb). reflexivity.
Qed.

Lemma plain_line_shape (line : str) :
  plain_line line = true ->
  exists body c,
    line = body ++ [c] /\ no_break body = true /\ is_lf c = true.
Proof.
  unfold plain_line. destruct (rev line) as [|c b] eqn:Hr; [discriminate|].
  intros H. apply andb_true_iff in H as [Hc Hb].
  exists (rev b), c. split; [|split; [|exact Hc]].
  - rewrite <- (rev_involutive line), Hr. reflexivity.
  - unfold no_break in *. apply forallb_forall. intros x Hx.
    rewrite forallb_forall in Hb. apply Hb. now apply in_rev.
Qed.

Lemma plain_line_snoc (body : str) :
  no_break body = true -> plain_line (body ++ nl) = true.
Proof.
  intros Hb. unfold plain_line, nl. rewrite rev_app_distr.
  cbn [rev app]. apply andb_true_iff. split; [reflexivity|].
  unfold no_break in *. apply forallb_forall. intros x Hx.
  rewrite forallb_forall in Hb. apply Hb. now apply in_rev.
Qed.

Lemma splitlines_plain (line rest : str) :
  plain_line line = true ->
  splitlines (line ++ rest) = line :: splitlines rest.
Proof.
  intros H. destruct (plain_line_shape _ H) as [body [c [-> [Hb Hc]]]].
  rewrite <- app_assoc. now apply splitlines_body.
Qed.

(** Joining lines that each end in a line feed and splitting the text
    again gives the lines back. *)
Lemma splitlines_join_plain (lines : list str) :
  Forall (fun l => plain_line l = true) lines ->
  splitlines (join lines) = lines.
Proof.
  induction 1 as [|l ls Hl _ IH]; [reflexivity|].
  unfold join in *. cbn [concat]. now rewrite splitlines_plain, IH.
Qed.

Lemma Forall_insert {A} (P : A -> Prop) (i : nat) (x : A) (l : list A) :
  P x -> Forall P l -> Forall P (list_insert i x l).
Proof.
  intros Hx Hl. unfold list_insert. revert i.
  induction Hl as [|y l Hy Hl IH]; intros i.
  - rewrite firstn_nil, skipn_nil. now constructor.
  - destruct i as [|i]; simpl; constructor; auto.
Qed.

Lemma filter_insert_length {A} (p : A -> bool) (i : nat) (x : A)
  (l : list A) :
  length (filter p (list_insert i x l)) =
  length (filter p l) + (if p x then 1 else 0).
Proof.
  unfold list_insert. rewrite <- (firstn_skipn i l) at 3.
  rewrite !filter_app, !length_app. cbn [filter].
  destruct (p x); simpl; lia.
Qed.

Lemma is_exact_head (k c : ascii) (ks line rest : str) :
  lstrip line = c :: rest -> is_space c = false -> Ascii.eqb k c = false ->
  is_exact (k :: ks) line = false.
Proof.
  intros Hl Hc Hk. apply not_true_iff_false. intros H.
  apply is_exact_section in H.
  now rewrite (@is_section_head k c ks line rest Hl Hc Hk) in H.
Qed.

Lemma stuck_decl_not_header (k : ascii) (ks : str) :
  Ascii.eqb k "f" = false -> is_exact (k :: ks) stuck_decl = false.
Proof.
  intros Hk.
  apply (@is_exact_head k "f" ks stuck_decl
           (lit "ault_mode : {none, stuck};" ++ nl));
    [reflexivity|reflexivity|exact Hk].
Qed.

Lemma stuck_assign_not_header (fault : Fault) (k : ascii) (ks : str) :
  Ascii.eqb k "n" = false -> is_exact (k :: ks) (stuck_assign fault) = false.
Proof.
  intros Hk.
  apply (@is_exact_head k "n" ks (stuck_assign fault)
           (skipn 5 (stuck_assign fault)));
    [reflexivity|reflexivity|exact Hk].
Qed.

Lemma find_index_insert_some {A} (p : A -> bool) (i : nat) (x : A)
  (l : list A) (k : nat) :
  p x = false -> find_index p l = Some k ->
  exists k', find_index p (list_insert i x l) = Some k'.
Proof.
  intros Hx Hk. rewrite (@find_index_insert _ p i x l Hx), Hk. simpl. eauto.
Qed.

Lemma stuck_assign_plain (fault : Fault) :
  no_break (variable fault) = true -> no_break (value fault) = true ->
  plain_line (stuck_assign fault) = true.
Proof.
  intros Hvar Hval. unfold stuck_assign.
  replace (lit "    next(" ++ variable fault ++ lit ") := " ++
           lit "case fault_mode = stuck : " ++ value fault ++ lit "; " ++
           lit "TRUE : " ++ variable fault ++ lit "; esac;" ++ nl)
    with ((lit "    next(" ++ variable fault ++ lit ") := " ++
           lit "case fault_mode = stuck : " ++ value fault ++ lit "; " ++
           lit "TRUE : " ++ variable fault ++ lit "; esac;") ++ nl)
    by (now rewrite <- !app_assoc).
  apply plain_line_snoc. unfold no_break in *.
  rewrite !forallb_app, Hvar, Hval. reflexivity.
Qed.

(** One application of [inject_stuck_at] to a text of plain lines: the
    result is again such a text with the two headers, and it holds the
    declaration once more. *)
Lemma inject_stuck_at_again (module_text : str) (fault : Fault) (v a : nat) :
  Forall (fun l => plain_line l = true) (splitlines module_text) ->
  find_index (is_exact (lit "VAR")) (splitlines module_text) = Some v ->
  find_index (is_exact (lit "ASSIGN")) (splitlines module_text) = Some a ->
  no_break (variable fault) = true -> no_break (value fault) = true ->
  exists out v' a',
    inject_stuck_at module_text fault = Done out /\
    Forall (fun l => plain_line l = true) (splitlines out) /\
    find_index (is_exact (lit "VAR")) (splitlines out) = Some v' /\
    find_index (is_exact (lit "ASSIGN")) (splitlines out) = Some a' /\
    count_stuck_decl (splitlines out) =
    S (count_stuck_decl (splitlines module_text)).
Proof.
  intros Hplain Hv Ha Hvar Hval.
  pose proof (inject_stuck_at_lines module_text fault) as Hres.
  cbv zeta in Hres. rewrite Hv, Ha in Hres.
  set (lines1 := list_insert (v + 1) stuck_decl (splitlines module_text))
    in *.
  set (lines2 := list_insert (a + 1 + (if v <? a then 1 else 0))
                   (stuck_assign fault) lines1) in *.
  assert (Hp2 : Forall (fun l => plain_line l = true) lines2).
  { apply Forall_insert; [now apply stuck_assign_plain|].
    apply Forall_insert; [reflexivity|exact Hplain]. }
  assert (Hsplit : splitlines (join lines2) = lines2)
    by now apply splitlines_join_plain.
  destruct (@find_index_insert_some _ (is_exact (lit "VAR")) (v + 1)
              stuck_decl _ v
              (@stuck_decl_not_header "V" (lit "AR") eq_refl) Hv)
    as [v1 Hv1].
  destruct (@find_index_insert_some _ (is_exact (lit "VAR"))
              (a + 1 + (if v <? a then 1 else 0)) (stuck_assign fault)
              lines1 v1
              (@stuck_assign_not_header fault "V" (lit "AR") eq_refl) Hv1)
    as [v2 Hv2].
  destruct (@find_index_insert_some _ (is_exact (lit "ASSIGN")) (v + 1)
              stuck_decl _ a
              (@stuck_decl_not_header "A" (lit "SSIGN") eq_refl) Ha)
    as [a1 Ha1].
  destruct (@find_index_insert_some _ (is_exact (lit "ASSIGN"))
              (a + 1 + (if v <? a then 1 else 0)) (stuck_assign fault)
              lines1 a1
              (@stuck_assign_not_header fault "A" (lit "SSIGN") eq_refl)
              Ha1)
    as [a2 Ha2].
  exists (join lines2), v2, a2. rewrite Hsplit.
  split; [exact Hres|]. split; [exact Hp2|].
  split; [exact Hv2|]. split; [exact Ha2|].
  unfold count_stuck_decl, lines2, lines1.
  rewrite !filter_insert_length.
  assert (H1 : str_eqb stuck_decl (stuck_assign fault) = false)
    by reflexivity.
  assert (H2 : str_eqb stuck_decl stuck_decl = true) by reflexivity.
  rewrite H1, H2. lia.
Qed.

(** [inject_faults] applies the one-fault injector once per fault, each
    time to the text the fault before has left: on a module text of plain
    lines with a [VAR] line and an [ASSIGN] line, every fault of the kind
    [stuck_at] adds the declaration of [fault_mode] again, so that [n]
    faults leave [n] declarations more than the text had. *)
Theorem apply_faults_repeats_declaration (fs : list Fault)
  (module_text : str) (v a : nat) :
  Forall (fun l => plain_line l = true) (splitlines module_text) ->
  find_index (is_exact (lit "VAR")) (splitlines module_text) = Some v ->
  find_index (is_exact (lit "ASSIGN")) (splitlines module_text) = Some a ->
  Forall one_line_fault fs ->
  exists out,
    apply_faults module_text fs = Done out /\
    count_stuck_decl (splitlines out) =
    length fs + count_stuck_decl (splitlines module_text).
Proof.
  revert module_text v a; induction fs as [|f fs IH];
    intros module_text v a Hplain Hv Ha Hfs.
  - exists module_text. split; reflexivity.
  - inversion Hfs as [|f' fs' [Hty [Hvar Hval]] Hrest]; subst.
    destruct (inject_stuck_at_again module_text f Hplain Hv Ha Hvar Hval)
      as [out1 [v1 [a1 [Hdone [Hp1 [Hv1 [Ha1 Hcount]]]]]]].
    destruct (IH out1 v1 a1 Hp1 Hv1 Ha1 Hrest) as [out [Hout Hc]].
    exists out. split.
    + cbn [apply_faults]. rewrite Hty.
      change (dict_get FAULT_INJECTORS (lit "stuck_at"))
        with (Some inject_stuck_at).
      cbv beta iota. now rewrite Hdone.
    + rewrite Hc, Hcount. simpl. lia.
Qed.

Lemma apply_faults_repeats_declaration_witness :
  exists out,
    apply_faults sensor_module script_faults = Done out /\
    count_stuck_decl (splitlines out) =
    2 + count_stuck_decl (splitlines sensor_module).
Proof.
  apply (@apply_faults_repeats_declaration script_faults sensor_module 1 3).
  - vm_compute. repeat constructor.
  - vm_compute. reflexivity.
  - vm_compute. reflexivity.
  - repeat constructor.
Defined.
